(** * Flux execution core: partition merge, attribute validation,
      side-effect synthesis and the test executor

    A shallow embedding of
    - [stdlib/universe] partition merge ([PartitionMergeTransformation]),
    - [plan.ValidateAttributes] as exercised by [TestParallel_Execute],
    - [interpreter.SynthesisTo],
    - the command-line [testExecutor.Run],
    with the properties the specification states about them. *)

From Stdlib Require Import ZArith Lia Bool.
From stdpp Require Import gmap strings list fin_maps sorting.

Local Open Scope Z_scope.

(** ** Shared vocabulary *)

(** [execute.Time] is an [int64] count of nanoseconds. *)
Abbreviation Time := Z (only parsing).

Definition MaxInt64 : Z := 9223372036854775807.
Definition MinInt64 : Z := -9223372036854775808.

Definition int64_range (z : Z) : Prop := MinInt64 <= z <= MaxInt64.

(** [execute.DatasetID] is a UUID, sixteen bytes read as one number. *)
Abbreviation DatasetID := N (only parsing).

(** A Go [error] value is carried by its message; [nil] is [None]. *)
Abbreviation error := string (only parsing).

(** Outcome of a Go call that may panic. *)
Inductive outcome (A : Type) : Type :=
  | Returned (a : A)
  | Panicked (msg : string).
Arguments Returned {A} a.
Arguments Panicked {A} msg.

Definition nil_dereference : string :=
  "invalid memory address or nil pointer dereference".

Definition obind {A B} (o : outcome A) (k : A -> outcome B) : outcome B :=
  match o with
  | Returned a => k a
  | Panicked m => Panicked m
  end.

(** ** Tables as the operators see them *)

Module Table.

(** [flux.ColType], the column types the fixtures use. *)
Inductive ColType := TInt | TFloat | TTime.

Record ColMeta := { Label : string; Type_ : ColType }.

(** A cell; a float is kept as its IEEE-754 bit pattern. *)
Inductive Value :=
  | VInt (i : Z)
  | VFloat (bits : Z)
  | VTime (t : Z).

(** [flux.GroupKey]: key columns with their values. *)
Record GroupKey := { KeyCols : list ColMeta; KeyValues : list Value }.

(** [flux.ColReader]: one batch of column data. *)
Record ColReader := {
  cr_Key : GroupKey;
  cr_Cols : list ColMeta;
  cr_Data : list (list Value)
}.

(** [flux.Table] seen through [Key], [Cols] and [Do]: [Do] hands the
    batches to its callback in order and reports [tbl_Err] at the end
    of the stream. *)
Record Table := {
  Key : GroupKey;
  Cols : list ColMeta;
  Buffers : list ColReader;
  tbl_Err : option error
}.

(** [tbl.Do(f)] threading the state [S] the callback closes over: the
    first error of the callback stops the iteration. *)
Fixpoint do_buffers {S} (f : S -> ColReader -> S * option error)
    (s : S) (crs : list ColReader) : S * option error :=
  match crs with
  | [] => (s, None)
  | cr :: rest =>
      match f s cr with
      | (s', None) => do_buffers f s' rest
      | (s', Some e) => (s', Some e)
      end
  end.

Definition Do {S} (tbl : Table) (f : S -> ColReader -> S * option error)
    (s : S) : S * option error :=
  match do_buffers f s (Buffers tbl) with
  | (s', None) => (s', tbl_Err tbl)
  | (s', Some e) => (s', Some e)
  end.







End Table.

(** ** The resource allocator *)

Module Memory.

(** Modelled from the spec: [memory.Allocator], whose source is not
    among the files.  Section 4.2: a running byte counter and a fixed
    quota; [allocate(n)] fails when current usage plus [n] exceeds the
    quota. *)
Record Allocator := { Used : Z; Quota : Z }.

Definition quota_exceeded : string := "resource allocator quota exceeded".

Definition Allocate (a : Allocator) (n : Z) : option Allocator :=
  if Used a + n <=? Quota a
  then Some {| Used := Used a + n; Quota := Quota a |}
  else None.

End Memory.

(** ** The execute package: what a transformation sees of its dataset *)

Module Execute.
Import Table.

(** The methods of [*execute.PassthroughDataset] the operator calls.
    The dataset lives outside the operator, so it is an interface
    here: any state [D] with these five methods. *)
Class Dataset (D : Type) := {
  ds_Process : D -> Table -> D * option error;
  ds_RetractTable : D -> GroupKey -> D * option error;
  ds_UpdateWatermark : D -> Time -> D * option error;
  ds_UpdateProcessingTime : D -> Time -> D * option error;
  ds_Finish : D -> option error -> D
}.

(** A call received by a dataset. *)
Inductive DatasetCall :=
  | CallProcess (tbl : Table)
  | CallRetractTable (key : GroupKey)
  | CallUpdateWatermark (mark : Time)
  | CallUpdateProcessingTime (pt : Time)
  | CallFinish (err : option error).

(** A dataset that writes down every call, oldest first, before
    handing it to the dataset it wraps. *)
Record Recorder (D : Type) := { calls : list DatasetCall; inner : D }.
Arguments calls {D} _.
Arguments inner {D} _.

Definition record {D A} (r : Recorder D) (c : DatasetCall) (res : D * A)
    : Recorder D * A :=
  ({| calls := calls r ++ [c]; inner := fst res |}, snd res).

#[export] Instance Recorder_Dataset {D} `{Dataset D} : Dataset (Recorder D) := {
  ds_Process r tbl := record r (CallProcess tbl) (ds_Process (inner r) tbl);
  ds_RetractTable r key :=
    record r (CallRetractTable key) (ds_RetractTable (inner r) key);
  ds_UpdateWatermark r mark :=
    record r (CallUpdateWatermark mark) (ds_UpdateWatermark (inner r) mark);
  ds_UpdateProcessingTime r pt :=
    record r (CallUpdateProcessingTime pt) (ds_UpdateProcessingTime (inner r) pt);
  ds_Finish r err :=
    {| calls := calls r ++ [CallFinish err]; inner := ds_Finish (inner r) err |}
}.

(** The dataset that accepts everything and keeps nothing. *)
#[export] Instance unit_Dataset : Dataset unit := {
  ds_Process _ _ := (tt, None);
  ds_RetractTable _ _ := (tt, None);
  ds_UpdateWatermark _ _ := (tt, None);
  ds_UpdateProcessingTime _ _ := (tt, None);
  ds_Finish _ _ := tt
}.

End Execute.

(** ** Buffered table builder *)

Module BufferedBuilder.
Import Table Memory.

(** Modelled from the spec: [table.BufferedBuilder], whose source is
    not among the files.  Section 4.4: the incoming table's columns are
    copied into a fresh buffered table using the shared resource
    allocator; the content is forwarded unchanged.  The builder is
    created from the group key alone, so it learns the columns from the
    first batch appended. *)
Record t := {
  GroupKey_ : GroupKey;
  Columns : list ColMeta;
  Buffers_ : list ColReader;
  Allocator_ : Allocator
}.

Definition NewBufferedBuilder (key : GroupKey) (mem : Allocator) : t :=
  {| GroupKey_ := key; Columns := []; Buffers_ := []; Allocator_ := mem |}.

Section Sized.
(** Bytes the builder charges the allocator for a batch; the spec leaves
    the figure open, and a builder that keeps the batch as it is charges
    nothing. *)
Variable bufferBytes : ColReader -> Z.

Definition AppendBuffer (b : t) (cr : ColReader) : t * option error :=
  match Allocate (Allocator_ b) (bufferBytes cr) with
  | None => (b, Some quota_exceeded)
  | Some mem' =>
      ({| GroupKey_ := GroupKey_ b;
          Columns := match Buffers_ b with [] => cr_Cols cr | _ => Columns b end;
          Buffers_ := Buffers_ b ++ [cr];
          Allocator_ := mem' |}, None)
  end.

End Sized.

Definition Table_ (b : t) : Table * option error :=
  ({| Key := GroupKey_ b; Cols := Columns b; Buffers := Buffers_ b;
      tbl_Err := None |}, None).

End BufferedBuilder.

(** ** stdlib/universe: the partition-merge transformation *)

Module Universe.
Import Table Memory Execute.

Record parallelParentState := {
  mark : Time;
  processing : Time;
  finished : bool
}.

(** [new(parallelParentState)]: the zero value. *)
Definition zero_state : parallelParentState :=
  {| mark := 0; processing := 0; finished := false |}.

(** The transformation with its dataset of type [D].  The tracing span
    and the context touch neither the dataset nor the parent states and
    are left out; the mutex makes [UpdateWatermark],
    [UpdateProcessingTime] and [Finish] atomic, so concurrent callers
    are a sequence of calls. *)
Record PartitionMergeTransformation (D : Type) := {
  dataset : D;
  alloc : Allocator;
  parentState : gmap N parallelParentState
}.
Arguments dataset {D} _.
Arguments alloc {D} _.
Arguments parentState {D} _.

(** The loop of the constructor: one fresh state per parent id. *)
Fixpoint register_parents (parents : list DatasetID)
    (m : gmap N parallelParentState) : gmap N parallelParentState :=
  match parents with
  | [] => m
  | id :: rest => register_parents rest (<[id := zero_state]> m)
  end.

Definition NewPartitionMergeTransformation {D} (d : D) (mem : Allocator)
    (parents : list DatasetID) : PartitionMergeTransformation D :=
  {| dataset := d; alloc := mem; parentState := register_parents parents ∅ |}.

(** [for _, state := range t.parentState { if f(state) < min { min = f(state) } }]
    started at [math.MaxInt64].  Go visits the entries in no fixed order. *)
Definition min_over (f : parallelParentState -> Time)
    (m : gmap N parallelParentState) : Time :=
  map_fold (fun _ state min => if f state <? min then f state else min) MaxInt64 m.

(** [finished = finished && state.finished] over all entries. *)
Definition all_finished (m : gmap N parallelParentState) : bool :=
  map_fold (fun _ state fin => fin && finished state) true m.

Section Methods.
Context {D : Type} `{Dataset D}.
Variable bufferBytes : ColReader -> Z.

Definition RetractTable (t : PartitionMergeTransformation D) (id : DatasetID)
    (key : GroupKey) : PartitionMergeTransformation D * option error :=
  let (d, r) := ds_RetractTable (dataset t) key in
  ({| dataset := d; alloc := alloc t; parentState := parentState t |}, r).

Definition Process (t : PartitionMergeTransformation D) (id : DatasetID)
    (tbl : Table) : PartitionMergeTransformation D * option error :=
  let passthroughBuilder := BufferedBuilder.NewBufferedBuilder (Key tbl) (alloc t) in
  match Do tbl (BufferedBuilder.AppendBuffer bufferBytes) passthroughBuilder with
  | (b, Some err) =>
      ({| dataset := dataset t; alloc := BufferedBuilder.Allocator_ b;
          parentState := parentState t |}, Some err)
  | (b, None) =>
      match BufferedBuilder.Table_ b with
      | (_, Some err) =>
          ({| dataset := dataset t; alloc := BufferedBuilder.Allocator_ b;
              parentState := parentState t |}, Some err)
      | (out, None) =>
          let (d, r) := ds_Process (dataset t) out in
          ({| dataset := d; alloc := BufferedBuilder.Allocator_ b;
              parentState := parentState t |}, r)
      end
  end.

Definition UpdateWatermark (t : PartitionMergeTransformation D) (id : DatasetID)
    (mark' : Time) : outcome (PartitionMergeTransformation D * option error) :=
  match parentState t !! id with
  | None => Panicked nil_dereference
  | Some st =>
      let ps := <[id := {| mark := mark'; processing := processing st;
                           finished := finished st |}]> (parentState t) in
      let min := min_over mark ps in
      let (d, r) := ds_UpdateWatermark (dataset t) min in
      Returned ({| dataset := d; alloc := alloc t; parentState := ps |}, r)
  end.

Definition UpdateProcessingTime (t : PartitionMergeTransformation D)
    (id : DatasetID) (pt : Time)
    : outcome (PartitionMergeTransformation D * option error) :=
  match parentState t !! id with
  | None => Panicked nil_dereference
  | Some st =>
      let ps := <[id := {| mark := mark st; processing := pt;
                           finished := finished st |}]> (parentState t) in
      let min := min_over processing ps in
      let (d, r) := ds_UpdateProcessingTime (dataset t) min in
      Returned ({| dataset := d; alloc := alloc t; parentState := ps |}, r)
  end.

Definition Finish (t : PartitionMergeTransformation D) (id : DatasetID)
    (err : option error) : outcome (PartitionMergeTransformation D) :=
  match parentState t !! id with
  | None => Panicked nil_dereference
  | Some st =>
      let ps := <[id := {| mark := mark st; processing := processing st;
                           finished := true |}]> (parentState t) in
      let d1 := match err with
                | Some e => ds_Finish (dataset t) (Some e)
                | None => dataset t
                end in
      let d2 := if all_finished ps then ds_Finish d1 None else d1 in
      Returned {| dataset := d2; alloc := alloc t; parentState := ps |}
  end.

(** A call made on the transformation by one of its parents. *)
Inductive Call :=
  | DoProcess (id : DatasetID) (tbl : Table)
  | DoRetractTable (id : DatasetID) (key : GroupKey)
  | DoUpdateWatermark (id : DatasetID) (mark : Time)
  | DoUpdateProcessingTime (id : DatasetID) (pt : Time)
  | DoFinish (id : DatasetID) (err : option error).

Definition call_id (c : Call) : DatasetID :=
  match c with
  | DoProcess id _ | DoRetractTable id _ | DoUpdateWatermark id _
  | DoUpdateProcessingTime id _ | DoFinish id _ => id
  end.

(** One call; what it returns to the parent is dropped, the
    transformation lives on. *)
Definition step (t : PartitionMergeTransformation D) (c : Call)
    : outcome (PartitionMergeTransformation D) :=
  match c with
  | DoProcess id tbl => Returned (fst (Process t id tbl))
  | DoRetractTable id key => Returned (fst (RetractTable t id key))
  | DoUpdateWatermark id m => obind (UpdateWatermark t id m) (fun p => Returned (fst p))
  | DoUpdateProcessingTime id pt =>
      obind (UpdateProcessingTime t id pt) (fun p => Returned (fst p))
  | DoFinish id err => Finish t id err
  end.

(** The calls of a run, in the order the lock admits them. *)
Fixpoint run (t : PartitionMergeTransformation D) (cs : list Call)
    : outcome (PartitionMergeTransformation D) :=
  match cs with
  | [] => Returned t
  | c :: rest => obind (step t c) (fun t' => run t' rest)
  end.

End Methods.

(** *** What a run supplies and what the dataset receives *)

(** The watermarks, resp. processing times, the parents supply in a run. *)
Definition watermarks (cs : list Call) : list (N * Z) :=
  omap (fun c => match c with DoUpdateWatermark id m => Some (id, m) | _ => None end) cs.

Definition processing_times (cs : list Call) : list (N * Z) :=
  omap (fun c => match c with DoUpdateProcessingTime id pt => Some (id, pt) | _ => None end) cs.

(** The values parent [id] supplied, oldest first, and the latest one. *)
Definition supplied (id : DatasetID) (h : list (N * Z)) : list Z :=
  omap (fun p : N * Z => if N.eqb (fst p) id then Some (snd p) else None) h.

Definition latest (id : DatasetID) (h : list (N * Z)) : option Z :=
  last (supplied id h).

Fixpoint list_min (l : list Z) : option Z :=
  match l with
  | [] => None
  | x :: rest => Some (match list_min rest with None => x | Some m => Z.min x m end)
  end.

(** The minimum of the latest value supplied by each parent so far, as
    the specification words it: parents that supplied nothing have no
    latest value. *)
Definition min_of_supplied (parents : list DatasetID) (h : list (N * Z)) : option Z :=
  list_min (omap (fun id => latest id h) parents).

(** The same with the zero value standing for a parent that supplied
    nothing yet. *)
Definition min_of_latest (parents : list DatasetID) (h : list (N * Z)) : option Z :=
  list_min (map (fun id => default 0 (latest id h)) parents).

(** The watermarks, processing times and completion signals among the
    calls a dataset received. *)
Definition forwarded_marks (l : list DatasetCall) : list Z :=
  omap (fun c => match c with CallUpdateWatermark m => Some m | _ => None end) l.

Definition forwarded_times (l : list DatasetCall) : list Z :=
  omap (fun c => match c with CallUpdateProcessingTime m => Some m | _ => None end) l.

Definition forwarded_finishes (l : list DatasetCall) : list (option error) :=
  omap (fun c => match c with CallFinish e => Some e | _ => None end) l.

Definition nondecreasing (l : list Z) : Prop :=
  forall (i j : nat) (a b : Z),
    (i <= j)%nat -> l !! i = Some a -> l !! j = Some b -> a <= b.

(** [nondecreasing], decided. *)
Fixpoint nondecreasingb (l : list Z) : bool :=
  match l with
  | x :: (y :: _) as rest => (x <=? y) && nondecreasingb rest
  | _ => true
  end.

(** Who calls, and with what. *)
Definition registered (parents : list DatasetID) (cs : list Call) : Prop :=
  Forall (fun c => call_id c ∈ parents) cs.

Definition times_in_range (cs : list Call) : Prop :=
  Forall (fun c => match c with
                   | DoUpdateWatermark _ m => int64_range m
                   | DoUpdateProcessingTime _ pt => int64_range pt
                   | _ => True
                   end) cs.

Definition error_free (cs : list Call) : Prop :=
  Forall (fun c => match c with DoFinish _ (Some _) => False | _ => True end) cs.

(** Every parent supplies values that start at or above zero and never
    go back. *)
Definition parents_advance (h : list (N * Z)) : Prop :=
  forall id : DatasetID, nondecreasing (0 :: supplied id h).

(** The transformation under observation: a recording dataset around a
    dataset [d]. *)
Definition observed {D} (d : D) (mem : Allocator) (parents : list DatasetID)
    : PartitionMergeTransformation (Recorder D) :=
  NewPartitionMergeTransformation {| calls := []; inner := d |} mem parents.

(** After each of the values supplied in [h], the minimum over the
    parents of the latest value each supplied up to there. *)
Definition minima_so_far (parents : list DatasetID) (h : list (N * Z))
    : list (option Z) :=
  map (fun k => min_of_latest parents (take (S k) h)) (seq 0 (length h)).

(** What the parent states hold after the calls [cs]: one entry per
    registered parent, with the latest watermark and processing time it
    supplied, zero before the first, and whether it called [Finish]. *)
Definition tracks {D} (parents : list DatasetID) (cs : list Call)
    (t : PartitionMergeTransformation D) : Prop :=
  (forall id, is_Some (parentState t !! id) <-> id ∈ parents) /\
  (forall id st, parentState t !! id = Some st ->
     mark st = default 0 (latest id (watermarks cs)) /\
     processing st = default 0 (latest id (processing_times cs)) /\
     (finished st = true <-> exists err, DoFinish id err ∈ cs)).

End Universe.

(** ** plan: physical attributes and their validation *)

Module Plan.

(** [plan.PhysicalAttr], the two attributes the fixtures set. *)
Inductive PhysicalAttr :=
  | ParallelRunAttribute (Factor : Z)
  | ParallelMergeAttribute (Factor : Z).

#[export] Instance PhysicalAttr_eq_dec : EqDecision PhysicalAttr.
Proof. solve_decision. Defined.

Definition ParallelRunKey : string := "parallel-run".

(** Modelled from the spec: the value of [plan.ParallelMergeKey], declared
    outside the files at hand; the glossary names the attribute. *)
Definition ParallelMergeKey : string := "parallel-merge".

(** [plan.PhysicalPlanNode] as [createPhysicalNode] fills it. *)
Record PhysicalPlanNode := {
  ID : string;
  RequiredAttrs : gmap string PhysicalAttr;
  OutputAttrs : gmap string PhysicalAttr
}.

Definition CreatePhysicalNode (id : string) : PhysicalPlanNode :=
  {| ID := id; RequiredAttrs := ∅; OutputAttrs := ∅ |}.

Definition SetOutputAttr (name : string) (attr : PhysicalAttr)
    (node : PhysicalPlanNode) : PhysicalPlanNode :=
  {| ID := ID node; RequiredAttrs := RequiredAttrs node;
     OutputAttrs := <[name := attr]> (OutputAttrs node) |}.

Definition SetRequiredAttr (name : string) (attr : PhysicalAttr)
    (node : PhysicalPlanNode) : PhysicalPlanNode :=
  {| ID := ID node; RequiredAttrs := <[name := attr]> (RequiredAttrs node);
     OutputAttrs := OutputAttrs node |}.

(** [withOutputAttr], [withRequiredAttr] and [createPhysicalNode] of
    parallel_test.go. *)
Definition withOutputAttr := SetOutputAttr.
Definition withRequiredAttr := SetRequiredAttr.

Definition createPhysicalNode (id : string)
    (opts : list (PhysicalPlanNode -> PhysicalPlanNode)) : PhysicalPlanNode :=
  fold_left (fun node opt => opt node) opts (CreatePhysicalNode id).

(** [plantest.PlanSpec]: nodes, and edges as pairs of indices
    (predecessor, successor) into them. *)
Record PlanSpec := {
  Nodes : list PhysicalPlanNode;
  Edges : list (nat * nat)
}.

(** The three ways validation fails. *)
Inductive ValidationError :=
  | MissingFromPredecessor (key node pred : string)
  | MustBeRequired (key node succ : string)
  | DoesNotMatch (key node pred : string).

(** [%q] of an identifier that needs no escaping. *)
Definition quote (s : string) : string :=
  String (Ascii.ascii_of_nat 34) s +:+ String (Ascii.ascii_of_nat 34) EmptyString.

(** The text of the error, as the fixtures expect it. *)
Definition Error (e : ValidationError) : string :=
  match e with
  | MissingFromPredecessor key node pred =>
      "invalid physical query plan; attribute " +:+ quote key +:+
      " required by " +:+ quote node +:+
      " is missing from predecessor " +:+ quote pred
  | MustBeRequired key node succ =>
      "invalid physical query plan; attribute " +:+ quote key +:+
      " on " +:+ quote node +:+
      " must be required by all successors, but isn't on " +:+ quote succ
  | DoesNotMatch key node pred =>
      "invalid physical query plan; attribute " +:+ quote key +:+
      " required by " +:+ quote node +:+
      " does not match attribute in predecessor " +:+ quote pred
  end.

(** The first failure of a check over the entries of an attribute map. *)
Definition first_failure {E} (check : string -> PhysicalAttr -> option E)
    (m : gmap string PhysicalAttr) : option E :=
  map_fold (fun key attr acc =>
              match acc with Some e => Some e | None => check key attr end) None m.

Section Validation.
(** Which output attributes bind the successors of the node. *)
Variable mustRequire : PhysicalAttr -> bool.

(** Every attribute [succ] requires is an equal output of [pred]. *)
Definition check_required (pred succ : PhysicalPlanNode) : option ValidationError :=
  first_failure (fun key attr =>
    match OutputAttrs pred !! key with
    | None => Some (MissingFromPredecessor key (ID succ) (ID pred))
    | Some out =>
        if decide (out = attr) then None
        else Some (DoesNotMatch key (ID succ) (ID pred))
    end) (RequiredAttrs succ).

(** Every binding output of [pred] is required by [succ]. *)
Definition check_output (pred succ : PhysicalPlanNode) : option ValidationError :=
  first_failure (fun key attr =>
    if mustRequire attr then
      match RequiredAttrs succ !! key with
      | None => Some (MustBeRequired key (ID pred) (ID succ))
      | Some _ => None
      end
    else None) (OutputAttrs pred).

Definition check_edge (pred succ : PhysicalPlanNode) : option ValidationError :=
  match check_required pred succ with
  | Some e => Some e
  | None => check_output pred succ
  end.

(** The edges of a plan with both ends among its nodes; the plan
    builder indexes the nodes with the edge's ends, so a built plan has
    no other edge. *)
Definition edges_of (p : PlanSpec) : list (PhysicalPlanNode * PhysicalPlanNode) :=
  omap (fun e : nat * nat =>
          match Nodes p !! fst e, Nodes p !! snd e with
          | Some pred, Some succ => Some (pred, succ)
          | _, _ => None
          end) (Edges p).

Fixpoint first_edge_failure (es : list (PhysicalPlanNode * PhysicalPlanNode))
    : option ValidationError :=
  match es with
  | [] => None
  | (pred, succ) :: rest =>
      match check_edge pred succ with
      | Some e => Some e
      | None => first_edge_failure rest
      end
  end.

Definition ValidateAttributesWith (p : PlanSpec) : option ValidationError :=
  first_edge_failure (edges_of p).

End Validation.

(** Modelled from the spec: [plan.ValidateAttributes], whose source is
    not among the files, word for word after section 4.1: every required
    attribute of a successor is an equal output of each predecessor, and
    every output attribute of a predecessor is required by all its
    successors. *)
Definition ValidateAttributes_as_specified : PlanSpec -> option ValidationError :=
  ValidateAttributesWith (fun _ => true).

(** Modelled from the spec: which output attributes must be required by
    the successors.  Section 4.1 asks it of every output attribute, but
    the fixtures parallel-from and parallel-from-filter of
    TestParallel_Execute pass validation with a parallel-merge output
    that no successor requires, while from-missing-required fails on a
    parallel-run output; so the rule binds parallel-run alone. *)
Definition SuccessorsMustRequire (attr : PhysicalAttr) : bool :=
  match attr with
  | ParallelRunAttribute _ => true
  | ParallelMergeAttribute _ => false
  end.

(** Modelled from the spec: [plan.ValidateAttributes], the rule on
    outputs kept to the attributes that ask for it. *)
Definition ValidateAttributes : PlanSpec -> option ValidationError :=
  ValidateAttributesWith SuccessorsMustRequire.

(** *** The plans of TestParallel_Execute *)

Record testcase := {
  name : string;
  spec : PlanSpec;
  wantValidationErr : option string
}.

Definition chain : list (nat * nat) := [(0, 1); (1, 2); (2, 3)]%nat.

Definition parallel_from : testcase := {|
  name := "parallel-from";
  spec := {|
    Nodes := [
      createPhysicalNode "from-test"
        [withOutputAttr ParallelRunKey (ParallelRunAttribute 2)];
      createPhysicalNode "merge"
        [withRequiredAttr ParallelRunKey (ParallelRunAttribute 2);
         withOutputAttr ParallelMergeKey (ParallelMergeAttribute 2)];
      createPhysicalNode "filter" [];
      createPhysicalNode "yield" []];
    Edges := chain |};
  wantValidationErr := None |}.

Definition parallel_from_filter : testcase := {|
  name := "parallel-from-filter";
  spec := {|
    Nodes := [
      createPhysicalNode "from-test"
        [withOutputAttr ParallelRunKey (ParallelRunAttribute 2)];
      createPhysicalNode "filter"
        [withRequiredAttr ParallelRunKey (ParallelRunAttribute 2);
         withOutputAttr ParallelRunKey (ParallelRunAttribute 2)];
      createPhysicalNode "merge"
        [withRequiredAttr ParallelRunKey (ParallelRunAttribute 2);
         withOutputAttr ParallelMergeKey (ParallelMergeAttribute 2)];
      createPhysicalNode "yield" []];
    Edges := chain |};
  wantValidationErr := None |}.

Definition from_missing_output : testcase := {|
  name := "from-missing-output";
  spec := {|
    Nodes := [
      createPhysicalNode "from-test" [];
      createPhysicalNode "filter"
        [withRequiredAttr ParallelRunKey (ParallelRunAttribute 2);
         withOutputAttr ParallelRunKey (ParallelRunAttribute 2)];
      createPhysicalNode "merge"
        [withRequiredAttr ParallelRunKey (ParallelRunAttribute 2);
         withOutputAttr ParallelMergeKey (ParallelMergeAttribute 2)];
      createPhysicalNode "yield" []];
    Edges := chain |};
  wantValidationErr := Some
    ("invalid physical query plan; attribute " +:+ quote "parallel-run" +:+
     " required by " +:+ quote "filter" +:+
     " is missing from predecessor " +:+ quote "from-test") |}.

Definition from_missing_required : testcase := {|
  name := "from-missing-required";
  spec := {|
    Nodes := [
      createPhysicalNode "from-test"
        [withOutputAttr ParallelRunKey (ParallelRunAttribute 2)];
      createPhysicalNode "filter"
        [withOutputAttr ParallelRunKey (ParallelRunAttribute 2)];
      createPhysicalNode "merge"
        [withRequiredAttr ParallelRunKey (ParallelRunAttribute 2);
         withOutputAttr ParallelMergeKey (ParallelMergeAttribute 2)];
      createPhysicalNode "yield" []];
    Edges := chain |};
  wantValidationErr := Some
    ("invalid physical query plan; attribute " +:+ quote "parallel-run" +:+
     " on " +:+ quote "from-test" +:+
     " must be required by all successors, but isn't on " +:+ quote "filter") |}.

Definition from_factor_mismatch : testcase := {|
  name := "from-factor-mismatch";
  spec := {|
    Nodes := [
      createPhysicalNode "from-test"
        [withOutputAttr ParallelRunKey (ParallelRunAttribute 2)];
      createPhysicalNode "filter"
        [withRequiredAttr ParallelRunKey (ParallelRunAttribute 1);
         withOutputAttr ParallelRunKey (ParallelRunAttribute 1)];
      createPhysicalNode "merge"
        [withRequiredAttr ParallelRunKey (ParallelRunAttribute 1);
         withOutputAttr ParallelMergeKey (ParallelMergeAttribute 1)];
      createPhysicalNode "yield" []];
    Edges := chain |};
  wantValidationErr := Some
    ("invalid physical query plan; attribute " +:+ quote "parallel-run" +:+
     " required by " +:+ quote "filter" +:+
     " does not match attribute in predecessor " +:+ quote "from-test") |}.

Definition testcases : list testcase :=
  [parallel_from; parallel_from_filter; from_missing_output;
   from_missing_required; from_factor_mismatch].

(** What the test asks of the validator on one case. *)
Definition passes (validate : PlanSpec -> option ValidationError)
    (tc : testcase) : Prop :=
  Error <$> validate (spec tc) = wantValidationErr tc.

(** *** Consistency of a plan, in words *)

Definition is_edge (p : PlanSpec) (pred succ : PhysicalPlanNode) : Prop :=
  (pred, succ) ∈ edges_of p.

(** Each successor's required attributes are matched by equal output
    attributes on all direct predecessors. *)
Definition required_are_matched (p : PlanSpec) : Prop :=
  forall pred succ key attr,
    is_edge p pred succ -> RequiredAttrs succ !! key = Some attr ->
    OutputAttrs pred !! key = Some attr.

(** Each predecessor's output attributes are required by all its
    successors. *)
Definition outputs_are_required (p : PlanSpec) : Prop :=
  forall pred succ key attr,
    is_edge p pred succ -> OutputAttrs pred !! key = Some attr ->
    is_Some (RequiredAttrs succ !! key).

(** The same for the outputs that bind the successors. *)
Definition binding_outputs_are_required (p : PlanSpec) : Prop :=
  forall pred succ key attr,
    is_edge p pred succ -> OutputAttrs pred !! key = Some attr ->
    SuccessorsMustRequire attr = true ->
    is_Some (RequiredAttrs succ !! key).

(** An error that names an attribute key and the two ends of an edge on
    which the stated failure occurs. *)
Definition describes (p : PlanSpec) (e : ValidationError) : Prop :=
  exists pred succ key,
    is_edge p pred succ /\
    ((e = MissingFromPredecessor key (ID succ) (ID pred) /\
      is_Some (RequiredAttrs succ !! key) /\ OutputAttrs pred !! key = None) \/
     (e = MustBeRequired key (ID pred) (ID succ) /\
      is_Some (OutputAttrs pred !! key) /\ RequiredAttrs succ !! key = None) \/
     (e = DoesNotMatch key (ID succ) (ID pred) /\
      exists req out, RequiredAttrs succ !! key = Some req /\
                      OutputAttrs pred !! key = Some out /\ out <> req)).

End Plan.

(** ** interpreter: synthesis of a side effect *)

Module Interpreter.

Section Synthesis.
(** [values.Value] and [semantic.Node] are opaque to the synthesis. *)
Context {Value Node : Type}.

(** The instruction numbers of [bytecode/types], declared outside the
    files at hand. *)
Variables IN_CONS_SIDE_EFFECTS IN_LOAD_VALUE IN_APPEND_SIDE_EFFECT
          IN_PROGRAM_START : Byte.byte.

Record LoadValue := { lv_Value : Value }.

Record AppendSideEffect := { ase_Node : Node }.

(** The [interface{}] argument of an instruction, by dynamic type. *)
Inductive Args :=
  | ArgInt (n : Z)
  | ArgLoadValue (lv : LoadValue)
  | ArgAppendSideEffect (ase : AppendSideEffect).

Record OpCode := { In : Byte.byte; Args_ : Args }.

Record SideEffect := { se_Node : Node; se_Value : Value }.

Record Interpreter := {
  code : list OpCode;
  sideEffects : list SideEffect;
  pkgName : string
}.

Definition Code (itrp : Interpreter) : list OpCode := code itrp.

Definition appendCode (itrp : Interpreter) (i : Byte.byte) (args : Args)
    : Interpreter :=
  {| code := code itrp ++ [{| In := i; Args_ := args |}];
     sideEffects := sideEffects itrp;
     pkgName := pkgName itrp |}.

Definition SynthesisTo (itrp : Interpreter) (sideEffect : SideEffect)
    : Interpreter * option error :=
  let itrp := appendCode itrp IN_CONS_SIDE_EFFECTS (ArgInt 0) in
  let lv := {| lv_Value := se_Value sideEffect |} in
  let itrp := appendCode itrp IN_LOAD_VALUE (ArgLoadValue lv) in
  let ase := {| ase_Node := se_Node sideEffect |} in
  let itrp := appendCode itrp IN_APPEND_SIDE_EFFECT (ArgAppendSideEffect ase) in
  let itrp := appendCode itrp IN_PROGRAM_START (ArgInt 0) in
  (itrp, None).

End Synthesis.

End Interpreter.

(** ** cmd/flux: the test executor *)

Module TestExecutor.

Inductive Code := Invalid | Inherit | FailedPrecondition.

(** Errors: those the collaborators hand over, and those [Run] builds
    with [errors.New], [errors.Newf] and [errors.Wrap]. *)
Inductive Err :=
  | Foreign (msg : string)
  | New (code : Code) (msg : string)
  | Wrap (err : Err) (code : Code) (msg : string).

(** One result of the query: the tables its stream delivers, each as
    [table.Stringify] prints it, and the error the stream ends with. *)
Record Result := { Tables : list string; streamErr : option Err }.

(** What the collaborators of one [Run] do: marshalling, compilation,
    start of the program, the results, the error of the result iterator,
    and the number of complaints [AssertSize] files with the logger when
    it is asked. *)
Record World := {
  marshalErr : option Err;
  compileErr : option Err;
  startErr : option Err;
  results : list Result;
  resultsErr : option Err;
  leakReports : nat
}.

(** What [Run] does to the outside, in order. *)
Inductive Event :=
  | EvMarshal
  | EvCompile
  | EvStart
  | EvNext (i : nat)
  | EvStringify (i : nat) (tbl : string)
  | EvRelease
  | EvAssertSize
  | EvDone
  | EvSpanFinish.

Definition leak_error : Err := New FailedPrecondition "Memory leak detected".

Definition output_error (output : string) : Err :=
  New FailedPrecondition
    ("Expected test to have no output. Got:" +:+ String (Ascii.ascii_of_nat 10) output).

(** [result.Tables().Do] with the callback of [Run], which prints every
    table into [output] and never fails. *)
Definition consume (i : nat) (r : Result) (output : string)
    : list Event * string :=
  (EvNext i :: map (EvStringify i) (Tables r),
   fold_left (fun out tbl => out +:+ tbl) (Tables r) output).

(** The loop over the results, from result number [i] on: the events,
    and either the output gathered or the error that ends [Run]. *)
Fixpoint consume_all (i : nat) (rs : list Result) (output : string)
    : list Event * (Err + string) :=
  match rs with
  | [] => ([], inr output)
  | r :: rest =>
      let (evs, output') := consume i r output in
      match streamErr r with
      | Some err => (evs, inl err)
      | None =>
          let (evs', res) := consume_all (S i) rest output' in
          (evs ++ evs', res)
      end
  end.

(** [testExecutor.Run]: the events and the error returned.  The two
    deferred calls run when the function leaves, last deferred first. *)
Definition Run (w : World) : list Event * option Err :=
  match marshalErr w with
  | Some err => ([EvMarshal], Some err)
  | None =>
      match compileErr w with
      | Some err =>
          ([EvMarshal; EvCompile; EvSpanFinish],
           Some (Wrap err Invalid "failed to compile"))
      | None =>
          match startErr w with
          | Some err =>
              ([EvMarshal; EvCompile; EvStart; EvSpanFinish],
               Some (Wrap err Inherit "error while executing program"))
          | None =>
              match consume_all 0 (results w) "" with
              | (evs, inl err) =>
                  ([EvMarshal; EvCompile; EvStart] ++ evs ++ [EvDone; EvSpanFinish],
                   Some err)
              | (evs, inr output) =>
                  let err := resultsErr w in
                  let err :=
                    match err with
                    | None =>
                        if (0 <? String.length output)%nat
                        then Some (output_error output) else None
                    | Some _ => err
                    end in
                  let err :=
                    if (0 <? leakReports w)%nat then Some leak_error else err in
                  ([EvMarshal; EvCompile; EvStart] ++ evs ++
                   [EvRelease; EvAssertSize; EvDone; EvSpanFinish], err)
              end
          end
      end
  end.

Definition is_consumption (e : Event) : bool :=
  match e with
  | EvNext _ | EvStringify _ _ => true
  | _ => false
  end.

End TestExecutor.


(** ** interpreter: synthesis of a program *)

Module Semantic.

(** [semantic.ImportDeclaration]: the path, and the name after [as]
    when there is one. *)
Record ImportDeclaration := { Path : string; As : option string }.

Section Syntax.
(** [semantic.Expression], [semantic.PackageClause] and what the
    statements other than expressions hold are opaque to the synthesis. *)
Context {Expression PackageClause Payload : Type}.

(** [semantic.Statement] by dynamic type; [OtherStatement] is any type
    the switch of [synStatement] does not list, with the name [%T]
    prints for it. *)
Inductive Statement :=
  | OptionStatement (s : Payload)
  | BuiltinStatement (s : Payload)
  | TestStatement (s : Payload)
  | NativeVariableAssignment (s : Payload)
  | MemberAssignment (s : Payload)
  | ExpressionStatement (e : Expression)
  | ReturnStatement (arg : Expression)
  | OtherStatement (typeName : string).

Record File := {
  Package_ : option PackageClause;
  Imports : list ImportDeclaration;
  Body : list Statement
}.

Record Package := { Files : list File }.

(** [semantic.Node] as [synRoot] looks at it; [OtherNode] is any other
    dynamic type, with the name [%T] prints for it. *)
Inductive Node :=
  | PackageNode (pkg : Package)
  | FileNode (file : File)
  | StatementNode (stmt : Statement)
  | OtherNode (typeName : string).

Definition is_expression_statement (s : Statement) : bool :=
  match s with ExpressionStatement _ => true | _ => false end.

(** The expression statements of a root, in source order. *)
Definition expression_statements (node : Node) : list Statement :=
  match node with
  | PackageNode pkg =>
      flat_map (fun f => filter (fun s => is_expression_statement s = true) (Body f))
               (Files pkg)
  | FileNode f => filter (fun s => is_expression_statement s = true) (Body f)
  | _ => []
  end.

End Syntax.

End Semantic.

Module Synthesis.
Import Interpreter Semantic.

Section Walk.
Context {Value Expression PackageClause Payload : Type}.

Abbreviation Stmt := (@Statement Expression Payload) (only parsing).
Abbreviation SNode := (@Node Expression PackageClause Payload) (only parsing).
Abbreviation Itrp := (@Interpreter Value SNode) (only parsing).

(** [values.Scope] as the synthesis uses it: the names set, and the
    return value. *)
Record Scope := { bindings : gmap string Value; returned : Value }.

Definition Set_ (scope : Scope) (name : string) (v : Value) : Scope :=
  {| bindings := <[name := v]> (bindings scope); returned := returned scope |}.

Definition SetReturn (scope : Scope) (v : Value) : Scope :=
  {| bindings := bindings scope; returned := v |}.

(** The interpreter and the scope it works on, both mutated in place by
    the Go code. *)
Record Machine := { itrp : Itrp; scope : Scope }.

Definition with_itrp (m : Machine) (i : Itrp) : Machine :=
  {| itrp := i; scope := scope m |}.

Definition with_scope (m : Machine) (sc : Scope) : Machine :=
  {| itrp := itrp m; scope := sc |}.

(** What is declared outside the files at hand: the instruction numbers,
    [values.InvalidValue], [PackageMain], the importer (a package object
    is its name and its value), and the evaluating methods of the
    interpreter, each free to change the interpreter and the scope. *)
Variables IN_CONS_SIDE_EFFECTS IN_LOAD_VALUE IN_APPEND_SIDE_EFFECT
          IN_PROGRAM_START : Byte.byte.
Variable InvalidValue : Value.
Variable PackageMain : string.
Variable ImportPackageObject : string -> error + (string * Value).
Variable doPackageClause : option PackageClause -> Itrp -> Itrp * option error.
Variable doOptionStatement : Payload -> Machine -> Machine * option error.
Variable doTestStatement : Payload -> Machine -> Machine * option error.
Variable doVariableAssignment : Payload -> Machine -> Machine * option error.
Variable doMemberAssignment : Payload -> Machine -> Machine * option error.
Variable doExpression : Expression -> Machine -> Machine * (error + Value).

(** [%T] of a statement. *)
Definition statement_type (s : Stmt) : string :=
  match s with
  | OptionStatement _ => "*semantic.OptionStatement"
  | BuiltinStatement _ => "*semantic.BuiltinStatement"
  | TestStatement _ => "*semantic.TestStatement"
  | NativeVariableAssignment _ => "*semantic.NativeVariableAssignment"
  | MemberAssignment _ => "*semantic.MemberAssignment"
  | ExpressionStatement _ => "*semantic.ExpressionStatement"
  | ReturnStatement _ => "*semantic.ReturnStatement"
  | OtherStatement ty => ty
  end.

Definition synStatement (stmt : Stmt) (m : Machine) : Machine * option error :=
  let m := with_scope m (SetReturn (scope m) InvalidValue) in
  match stmt with
  | OptionStatement s => doOptionStatement s m
  | BuiltinStatement _ => (m, None)
  | TestStatement s => doTestStatement s m
  | NativeVariableAssignment s => doVariableAssignment s m
  | MemberAssignment s => doMemberAssignment s m
  | ExpressionStatement e =>
      match doExpression e m with
      | (m, inl err) => (m, Some err)
      | (m, inr v) =>
          let m :=
            if decide (pkgName (itrp m) = PackageMain) then
              let lv := {| lv_Value := v |} in
              let i := appendCode (itrp m) IN_LOAD_VALUE (ArgLoadValue lv) in
              let ase := {| ase_Node := StatementNode stmt |} in
              with_itrp m (appendCode i IN_APPEND_SIDE_EFFECT (ArgAppendSideEffect ase))
            else m in
          (with_scope m (SetReturn (scope m) v), None)
      end
  | ReturnStatement arg =>
      match doExpression arg m with
      | (m, inl err) => (m, Some err)
      | (m, inr v) => (with_scope m (SetReturn (scope m) v), None)
      end
  | OtherStatement ty => (m, Some ("unsupported statement type " +:+ ty))
  end.

Definition synImport (dec : ImportDeclaration) (m : Machine)
    : Machine * option error :=
  match ImportPackageObject (Path dec) with
  | inl err => (m, Some err)
  | inr (pkgname, pkg) =>
      let name := match As dec with Some n => n | None => pkgname end in
      (with_scope m (Set_ (scope m) name pkg), None)
  end.

(** [for _, x := range xs { if err := f(x); err != nil { return err } }] *)
Fixpoint each {A} (f : A -> Machine -> Machine * option error)
    (xs : list A) (m : Machine) : Machine * option error :=
  match xs with
  | [] => (m, None)
  | x :: rest =>
      match f x m with
      | (m', Some err) => (m', Some err)
      | (m', None) => each f rest m'
      end
  end.

Definition synFile (file : File) (m : Machine) : Machine * option error :=
  match doPackageClause (Package_ file) (itrp m) with
  | (i, Some err) => (with_itrp m i, Some err)
  | (i, None) =>
      match each synImport (Imports file) (with_itrp m i) with
      | (m, Some err) => (m, Some err)
      | (m, None) => each synStatement (Body file) m
      end
  end.

Definition synPackage (pkg : Package) (m : Machine) : Machine * option error :=
  each synFile (Files pkg) m.

Definition synRoot (node : SNode) (m : Machine) : Machine * option error :=
  match node with
  | PackageNode n => synPackage n m
  | FileNode n => synFile n m
  | StatementNode s => (m, Some ("unsupported root node " +:+ statement_type s))
  | OtherNode ty => (m, Some ("unsupported root node " +:+ ty))
  end.

Definition Synthesis (node : SNode) (m : Machine) : Machine * option error :=
  let i := appendCode (itrp m) IN_CONS_SIDE_EFFECTS (ArgInt 0) in
  let i := {| code := code i; sideEffects := []; pkgName := pkgName i |} in
  match synRoot node (with_itrp m i) with
  | (m, Some err) => (m, Some err)
  | (m, None) =>
      (with_itrp m (appendCode (itrp m) IN_PROGRAM_START (ArgInt 0)), None)
  end.

(** The two instructions an expression statement of the main package
    leaves. *)
Definition side_effect_code (sv : Stmt * Value) : list (@OpCode Value SNode) :=
  [ {| In := IN_LOAD_VALUE; Args_ := ArgLoadValue {| lv_Value := snd sv |} |};
    {| In := IN_APPEND_SIDE_EFFECT;
       Args_ := ArgAppendSideEffect {| ase_Node := StatementNode (fst sv) |} |} ].

(** The evaluating methods leave the instructions emitted so far alone. *)
Definition keeps_code (f : Machine -> Machine * option error) : Prop :=
  forall m, code (itrp (fst (f m))) = code (itrp m).

Definition evaluators_keep_code : Prop :=
  (forall c i, code (fst (doPackageClause c i)) = code i) /\
  (forall s, keeps_code (doOptionStatement s)) /\
  (forall s, keeps_code (doTestStatement s)) /\
  (forall s, keeps_code (doVariableAssignment s)) /\
  (forall s, keeps_code (doMemberAssignment s)) /\
  (forall e m, code (itrp (fst (doExpression e m))) = code (itrp m)).

End Walk.

End Synthesis.

(** ** stdlib/universe: creation of the transformation *)

Module UniverseCreate.
Import Memory Universe.

Definition PartitionMergeKind : string := "influx2x/partitionMergeKind".

(** [plan.ProcedureSpec] by dynamic type: the partition-merge spec, which
    embeds [plan.DefaultCost] and nothing else, or any other type, with
    the name [%T] prints for it. *)
Inductive ProcedureSpec :=
  | PartitionMergeProcedureSpec
  | OtherProcedureSpec (kind typeName : string).

Definition Kind (spec : ProcedureSpec) : string :=
  match spec with
  | PartitionMergeProcedureSpec => PartitionMergeKind
  | OtherProcedureSpec kind _ => kind
  end.

(** [execute.Administration] as the creation reads it; the context only
    carries the tracing span. *)
Record Administration := {
  adm_Allocator : Allocator;
  adm_Parents : list DatasetID
}.

Section Create.
Context {D : Type}.
(** [execute.NewPassthroughDataset]. *)
Variable NewPassthroughDataset : DatasetID -> D.

Definition createPartitionMergeTransformation (id : DatasetID)
    (spec : ProcedureSpec) (a : Administration)
    : error + (PartitionMergeTransformation D * D) :=
  match spec with
  | OtherProcedureSpec _ ty => inl ("invalid spec type " +:+ ty)
  | PartitionMergeProcedureSpec =>
      let alloc := adm_Allocator a in
      let d := NewPassthroughDataset id in
      inr (NewPartitionMergeTransformation d alloc (adm_Parents a), d)
  end.

End Create.

End UniverseCreate.

(** ** execute/executetest: the flags of the tests *)

Module ExecuteTest.

(** An [interface{}] flag value, by dynamic type. *)
Inductive Any :=
  | ABool (b : bool)
  | AInt (n : Z)
  | AString (s : string).

(** [feature.Flag] as the flagger reads it. *)
Record Flag := { Key : string; Default : Any }.

Definition enabled : list string :=
  [ "labelPolymorphism"; "vectorizedMap"; "vectorizedConst";
    "vectorizedConditionals"; "vectorizedFloat"; "vectorizeLogicalOperators";
    "vectorizedEqualityOps"; "vectorizedUnaryOps"; "optimizeAggregateWindow";
    "optimizeStateTracking"; "optimizeSetTransformation";
    "removeRedundantSortNodes"; "strictNullLogicalOps" ].

Definition testFlags : gmap string Any :=
  list_to_map (map (fun key => (key, ABool true)) enabled).

(** [TestFlagger.FlagValue]. *)
Definition FlagValue (t : gmap string Any) (flag : Flag) : Any :=
  match t !! Key flag with
  | None => Default flag
  | Some v => v
  end.

(** [dependencyList.Inject], a dependency being what its [Inject] does
    to a context. *)
Definition Inject {Ctx : Type} (d : list (Ctx -> Ctx)) (ctx : Ctx) : Ctx :=
  fold_left (fun ctx dep => dep ctx) d ctx.

End ExecuteTest.

(** ** cmd/flux: what a run prints *)

Module TestOutput.
Import TestExecutor.

(** Everything [Run] prints into its builder when it reads all the
    results: every table of every result, in order. *)
Definition printed (rs : list Result) : string :=
  fold_left (fun out tbl => out +:+ tbl) (flat_map Tables rs) "".

#[export] Instance Event_eq_dec : EqDecision Event.
Proof. solve_decision. Defined.

(** How often an event occurs in a trace. *)
Definition occurrences (e : Event) (tr : list Event) : nat :=
  length (filter (fun e' => e' = e) tr).

(** The event reads from result number [k]. *)
Definition touches (k : nat) (e : Event) : Prop :=
  match e with
  | EvNext j | EvStringify j _ => j = k
  | _ => False
  end.

(** The program was compiled and started. *)
Definition started (w : World) : Prop :=
  marshalErr w = None /\ compileErr w = None /\ startErr w = None.

(** The errors [Run] reports for the execution itself, each with the
    circumstances in which it arises: an error of a collaborator, as it
    comes or wrapped, and the complaint about what was printed. *)
Inductive execution_error (w : World) : Err -> Prop :=
  | exec_marshal err :
      marshalErr w = Some err -> execution_error w err
  | exec_compile err :
      marshalErr w = None -> compileErr w = Some err ->
      execution_error w (Wrap err Invalid "failed to compile")
  | exec_start err :
      marshalErr w = None -> compileErr w = None -> startErr w = Some err ->
      execution_error w (Wrap err Inherit "error while executing program")
  | exec_stream pre r post err :
      started w -> results w = pre ++ r :: post ->
      (forall r', r' ∈ pre -> streamErr r' = None) -> streamErr r = Some err ->
      execution_error w err
  | exec_results err :
      started w -> (forall r, r ∈ results w -> streamErr r = None) ->
      resultsErr w = Some err -> execution_error w err
  | exec_output :
      started w -> (forall r, r ∈ results w -> streamErr r = None) ->
      resultsErr w = None -> printed (results w) <> "" ->
      execution_error w (output_error (printed (results w))).

(** No collaborator hands [Run] the leak error itself. *)
Definition collaborators_report_no_leak (w : World) : Prop :=
  marshalErr w <> Some leak_error /\
  (forall r, r ∈ results w -> streamErr r <> Some leak_error) /\
  resultsErr w <> Some leak_error.

(** The allocator check was made and filed a complaint. *)
Definition leak_detected (w : World) (tr : list Event) : Prop :=
  EvAssertSize ∈ tr /\ (0 < leakReports w)%nat.

End TestOutput.

(** ** interpreter: what [SynthesisTo] emits *)

Module SynthesisToCode.
Import Interpreter.

Section Code.
Context {Value Node : Type}.
Variables IN_CONS_SIDE_EFFECTS IN_LOAD_VALUE IN_APPEND_SIDE_EFFECT
          IN_PROGRAM_START : Byte.byte.

(** The four instructions of one side effect. *)
Definition four_opcodes (se : @SideEffect Value Node) : list (@OpCode Value Node) :=
  [ {| In := IN_CONS_SIDE_EFFECTS; Args_ := ArgInt 0 |};
    {| In := IN_LOAD_VALUE; Args_ := ArgLoadValue {| lv_Value := se_Value se |} |};
    {| In := IN_APPEND_SIDE_EFFECT;
       Args_ := ArgAppendSideEffect {| ase_Node := se_Node se |} |};
    {| In := IN_PROGRAM_START; Args_ := ArgInt 0 |} ].

(** [SynthesisTo] for one side effect after the other. *)
Definition SynthesisToEach (itrp : @Interpreter Value Node)
    (ses : list (@SideEffect Value Node)) : @Interpreter Value Node :=
  fold_left (fun i se =>
               fst (SynthesisTo IN_CONS_SIDE_EFFECTS IN_LOAD_VALUE
                      IN_APPEND_SIDE_EFFECT IN_PROGRAM_START i se)) ses itrp.

End Code.

End SynthesisToCode.

(** ** Sample inputs *)

Module Samples.
Import Interpreter Semantic Synthesis TestExecutor.

(** An interpreter whose expressions are integer literals: an expression
    evaluates to itself, the package clause names the package ([main]
    when there is none), the other statements do nothing, and there is
    nothing to import. *)
Definition literal_doExpression (e : Z)
    (m : @Machine Z Z string unit) : @Machine Z Z string unit * (error + Z) :=
  (m, inr e).

Definition literal_doPackageClause (c : option string)
    (i : @Interpreter Z (@Node Z string unit))
    : @Interpreter Z (@Node Z string unit) * option error :=
  ({| code := code i; sideEffects := sideEffects i; pkgName := default "main" c |},
   None).

Definition literal_skip (s : unit) (m : @Machine Z Z string unit)
    : @Machine Z Z string unit * option error :=
  (m, None).

Definition no_importer (path : string) : error + (string * Z) :=
  inl "no such package".

Definition literal_file : @File Z string unit :=
  {| Package_ := None; Imports := [];
     Body := [ExpressionStatement 1; BuiltinStatement tt; ExpressionStatement 2] |}.

Definition empty_machine : @Machine Z Z string unit :=
  {| itrp := {| code := []; sideEffects := []; pkgName := "" |};
     scope := {| bindings := ∅; returned := 0 |} |}.

(** A run that prints one table and then meets a failing stream. *)
Definition failing_world : World :=
  {| marshalErr := None; compileErr := None; startErr := None;
     results := [ {| Tables := ["diff"]; streamErr := None |};
                  {| Tables := []; streamErr := Some (Foreign "stream failed") |};
                  {| Tables := ["never read"]; streamErr := None |} ];
     resultsErr := None; leakReports := 3 |}.

(** A run that prints one table and whose iterator reports an error. *)
Definition printing_world : World :=
  {| marshalErr := None; compileErr := None; startErr := None;
     results := [ {| Tables := ["diff"]; streamErr := None |} ];
     resultsErr := Some (Foreign "iterator failed"); leakReports := 0 |}.

End Samples.

(** * Properties *)

(** ** Minimum and conjunction over the parent states *)

Section ParentStates.
Import Universe.
Implicit Types (m : gmap N parallelParentState) (f : parallelParentState -> Z).

Lemma min_over_bound f m : min_over f m <= MaxInt64.
Proof.
  unfold min_over.
  apply (map_fold_weak_ind (fun r _ => r <= MaxInt64)); [lia |].
  intros i x m' r _ IH. destruct (Z.ltb_spec (f x) r); lia.
Qed.

Lemma min_over_le f m id st : m !! id = Some st -> min_over f m <= f st.
Proof.
  unfold min_over. revert id st.
  apply (map_fold_weak_ind
           (fun r m => forall id st, m !! id = Some st -> r <= f st)).
  - intros id st Hl. by rewrite lookup_empty in Hl.
  - intros i x m' r Hi IH id st Hl.
    destruct (decide (i = id)) as [->|Hne].
    + rewrite lookup_insert_eq in Hl. injection Hl as ->.
      destruct (Z.ltb_spec (f st) r); lia.
    + rewrite lookup_insert_ne in Hl by done.
      specialize (IH _ _ Hl). destruct (Z.ltb_spec (f x) r); lia.
Qed.

Lemma min_over_attained f m :
  min_over f m = MaxInt64 \/
  exists id st, m !! id = Some st /\ min_over f m = f st.
Proof.
  unfold min_over.
  apply (map_fold_weak_ind
           (fun r m => r = MaxInt64 \/ exists id st, m !! id = Some st /\ r = f st)).
  - by left.
  - intros i x m' r Hi IH. destruct (Z.ltb_spec (f x) r).
    + right. exists i, x. by rewrite lookup_insert_eq.
    + destruct IH as [->|(id & st & Hl & ->)]; [by left|].
      right. exists id, st. split; [|done].
      rewrite lookup_insert_ne; [done|]. intros ->. congruence.
Qed.

(** The loop computes the greatest lower bound of the values below
    [MaxInt64]. *)
Lemma min_over_greatest f m z :
  z <= MaxInt64 -> (forall id st, m !! id = Some st -> z <= f st) ->
  z <= min_over f m.
Proof.
  intros Hz Hall. destruct (min_over_attained f m) as [->|(id & st & Hl & ->)];
    [done | eauto].
Qed.

Lemma all_finished_true m :
  all_finished m = true <-> forall id st, m !! id = Some st -> finished st = true.
Proof.
  unfold all_finished.
  apply (map_fold_weak_ind
           (fun r m => r = true <-> forall id st, m !! id = Some st -> finished st = true)).
  - split; [|done]. intros _ id st Hl. by rewrite lookup_empty in Hl.
  - intros i x m' r Hi IH. rewrite andb_true_iff, IH. split.
    + intros [Hm Hx] id st Hl. destruct (decide (i = id)) as [->|Hne].
      * rewrite lookup_insert_eq in Hl. by injection Hl as <-.
      * rewrite lookup_insert_ne in Hl by done. eauto.
    + intros Hall. split.
      * intros id st Hl. apply (Hall id). rewrite lookup_insert_ne; [done|].
        intros ->. congruence.
      * apply (Hall i). by rewrite lookup_insert_eq.
Qed.

Lemma register_parents_lookup parents m id :
  register_parents parents m !! id =
  if decide (id ∈ parents) then Some zero_state else m !! id.
Proof.
  revert m. induction parents as [|p ps IH]; intros m; cbn [register_parents].
  - rewrite decide_False; [done | apply not_elem_of_nil].
  - rewrite IH. destruct (decide (id ∈ ps)) as [Hin|Hnin].
    + rewrite decide_True; [done|]. apply elem_of_cons. by right.
    + destruct (decide (p = id)) as [->|Hne].
      * rewrite lookup_insert_eq. rewrite decide_True; [done|]. apply elem_of_cons. by left.
      * rewrite lookup_insert_ne by done. rewrite decide_False; [done|].
        intros [?|?]%elem_of_cons; congruence.
Qed.

Lemma register_parents_dom parents :
  dom (register_parents parents ∅) = list_to_set parents.
Proof.
  apply set_eq. intros id. rewrite elem_of_dom, register_parents_lookup.
  rewrite elem_of_list_to_set. case_decide as Hin.
  - split; [done|]. intros _. by eexists.
  - rewrite lookup_empty. split; [by intros [? ?]|done].
Qed.

End ParentStates.

(** ** Histories *)

Section Histories.
Import Universe.

Lemma supplied_snoc id h id' v :
  supplied id (h ++ [(id', v)]) =
  if decide (id' = id) then supplied id h ++ [v] else supplied id h.
Proof.
  unfold supplied. rewrite omap_app. simpl.
  destruct (N.eqb_spec id' id) as [->|Hne].
  - by rewrite decide_True.
  - rewrite decide_False by done. by rewrite app_nil_r.
Qed.

Lemma latest_snoc id h id' v :
  latest id (h ++ [(id', v)]) = if decide (id' = id) then Some v else latest id h.
Proof.
  unfold latest. rewrite supplied_snoc. case_decide; [|done]. by rewrite last_snoc.
Qed.

Lemma latest_supplied id h v : latest id h = Some v -> v ∈ supplied id h.
Proof.
  unfold latest. intros Hl. apply last_Some in Hl as [l' ->].
  apply elem_of_app. right. by apply list_elem_of_singleton.
Qed.

Lemma supplied_elem id h v : v ∈ supplied id h -> (id, v) ∈ h.
Proof.
  unfold supplied. rewrite list_elem_of_omap. intros ([id' v'] & Hin & Heq).
  simpl in Heq. destruct (N.eqb_spec id' id) as [->|]; [|done].
  by injection Heq as ->.
Qed.

Lemma watermarks_snoc cs c :
  watermarks (cs ++ [c]) =
  watermarks cs ++ match c with DoUpdateWatermark id m => [(id, m)] | _ => [] end.
Proof. unfold watermarks. rewrite omap_app. by destruct c. Qed.

Lemma processing_times_snoc cs c :
  processing_times (cs ++ [c]) =
  processing_times cs ++
  match c with DoUpdateProcessingTime id pt => [(id, pt)] | _ => [] end.
Proof. unfold processing_times. rewrite omap_app. by destruct c. Qed.

Lemma watermarks_elem cs id m :
  (id, m) ∈ watermarks cs <-> DoUpdateWatermark id m ∈ cs.
Proof.
  unfold watermarks. rewrite list_elem_of_omap. split.
  - intros (c & Hin & Heq). destruct c; try done. by injection Heq as -> ->.
  - intros Hin. by exists (DoUpdateWatermark id m).
Qed.

Lemma processing_times_elem cs id pt :
  (id, pt) ∈ processing_times cs <-> DoUpdateProcessingTime id pt ∈ cs.
Proof.
  unfold processing_times. rewrite list_elem_of_omap. split.
  - intros (c & Hin & Heq). destruct c; try done. by injection Heq as -> ->.
  - intros Hin. by exists (DoUpdateProcessingTime id pt).
Qed.

Lemma latest_watermark_in_range cs id :
  times_in_range cs -> int64_range (default 0 (latest id (watermarks cs))).
Proof.
  intros Hr. destruct (latest id (watermarks cs)) as [v|] eqn:Hl; simpl.
  - apply latest_supplied, supplied_elem, watermarks_elem in Hl.
    unfold times_in_range in Hr. rewrite Forall_forall in Hr. apply (Hr _ Hl).
  - unfold int64_range, MinInt64, MaxInt64. lia.
Qed.

Lemma latest_processing_in_range cs id :
  times_in_range cs -> int64_range (default 0 (latest id (processing_times cs))).
Proof.
  intros Hr. destruct (latest id (processing_times cs)) as [v|] eqn:Hl; simpl.
  - apply latest_supplied, supplied_elem, processing_times_elem in Hl.
    unfold times_in_range in Hr. rewrite Forall_forall in Hr. apply (Hr _ Hl).
  - unfold int64_range, MinInt64, MaxInt64. lia.
Qed.

(** [list_min] is the least element. *)
Lemma list_min_spec l v :
  list_min l = Some v <-> v ∈ l /\ forall x, x ∈ l -> v <= x.
Proof.
  revert v. induction l as [|a l IH]; intros v; simpl.
  - split; [done|]. intros [[]%elem_of_nil _].
  - destruct (list_min l) as [m|] eqn:Hm.
    + destruct (proj1 (IH m) eq_refl) as [Hin Hle]. split.
      * intros [= <-]. split.
        -- destruct (Z.min_spec a m) as [[_ ->]|[_ ->]];
             apply elem_of_cons; [by left | by right].
        -- intros x [->|Hx]%elem_of_cons; [lia|]. specialize (Hle _ Hx). lia.
      * intros [Hv Hall]. f_equal.
        pose proof (Hall a ltac:(apply elem_of_cons; by left)).
        pose proof (Hall m ltac:(apply elem_of_cons; by right)).
        apply elem_of_cons in Hv as [->|Hv]; [lia|]. specialize (Hle _ Hv). lia.
    + assert (l = []) as ->.
      { destruct l; [done|]. simpl in Hm. done. }
      split.
      * intros [= <-]. split; [apply elem_of_cons; by left|].
        intros x [->|[]%elem_of_nil]%elem_of_cons. lia.
      * intros [[->|[]%elem_of_nil]%elem_of_cons _]. done.
Qed.

Lemma nondecreasing_snoc l x :
  nondecreasing l -> (forall y, y ∈ l -> y <= x) -> nondecreasing (l ++ [x]).
Proof.
  intros Hl Hx i j a b Hij Ha Hb.
  destruct (decide (j < length l)%nat) as [Hj|Hj].
  - rewrite lookup_app_l in Ha by lia. rewrite lookup_app_l in Hb by lia. eauto.
  - rewrite lookup_app_r in Hb by lia.
    destruct (j - length l)%nat eqn:Hd; [|done]. injection Hb as <-.
    destruct (decide (i < length l)%nat) as [Hi|Hi].
    + rewrite lookup_app_l in Ha by lia. apply Hx. by eapply list_elem_of_lookup_2.
    + rewrite lookup_app_r in Ha by lia.
      destruct (i - length l)%nat; [|done]. injection Ha as <-. lia.
Qed.

End Histories.

(** ** One call after another *)

Section Runs.
Import Table Memory Execute Universe.
Context {D : Type} `{Dataset D}.
Variable bufferBytes : ColReader -> Z.
Implicit Types (t : PartitionMergeTransformation D) (cs : list Call).

Lemma run_snoc t cs c :
  run bufferBytes t (cs ++ [c]) =
  obind (run bufferBytes t cs) (fun t' => step bufferBytes t' c).
Proof.
  revert t. induction cs as [|c' cs IH]; intros t; simpl.
  - by destruct (step bufferBytes t c).
  - destruct (step bufferBytes t c'); simpl; [apply IH | done].
Qed.

Lemma Process_parentState t id tbl :
  parentState (fst (Process bufferBytes t id tbl)) = parentState t.
Proof.
  unfold Process.
  destruct (Do tbl _ _) as [b [e|]]; [done|].
  destruct (BufferedBuilder.Table_ b) as [out [e|]]; [done|].
  by destruct (ds_Process (dataset t) out).
Qed.

Lemma RetractTable_parentState t id key :
  parentState (fst (RetractTable t id key)) = parentState t.
Proof. unfold RetractTable. by destruct (ds_RetractTable (dataset t) key). Qed.

Lemma UpdateWatermark_registered t id m st :
  parentState t !! id = Some st ->
  let ps := <[id := {| mark := m; processing := processing st;
                       finished := finished st |}]> (parentState t) in
  let res := ds_UpdateWatermark (dataset t) (min_over mark ps) in
  UpdateWatermark t id m =
  Returned ({| dataset := fst res; alloc := alloc t; parentState := ps |}, snd res).
Proof.
  intros Hl. unfold UpdateWatermark. rewrite Hl. simpl.
  by destruct (ds_UpdateWatermark _ _).
Qed.

Lemma UpdateProcessingTime_registered t id pt st :
  parentState t !! id = Some st ->
  let ps := <[id := {| mark := mark st; processing := pt;
                       finished := finished st |}]> (parentState t) in
  let res := ds_UpdateProcessingTime (dataset t) (min_over processing ps) in
  UpdateProcessingTime t id pt =
  Returned ({| dataset := fst res; alloc := alloc t; parentState := ps |}, snd res).
Proof.
  intros Hl. unfold UpdateProcessingTime. rewrite Hl. simpl.
  by destruct (ds_UpdateProcessingTime _ _).
Qed.

Lemma tracks_frame parents cs c t t' :
  parentState t' = parentState t ->
  match c with DoProcess _ _ | DoRetractTable _ _ => True | _ => False end ->
  tracks parents cs t -> tracks parents (cs ++ [c]) t'.
Proof.
  intros Hps Hc [Hdom Hst]. split; rewrite Hps; [done|].
  intros id st Hl. destruct (Hst _ _ Hl) as (Hm & Hp & Hf).
  rewrite watermarks_snoc, processing_times_snoc.
  destruct c; try done; rewrite !app_nil_r; (split; [done|split; [done|]]);
    rewrite Hf; split; intros [e He]; exists e.
  all: try (apply elem_of_app; by left).
  all: apply elem_of_app in He as [He|He%list_elem_of_singleton]; done.
Qed.

Lemma tracks_insert_dom (parents : list N) (m : gmap N parallelParentState) id st st' :
  (forall id', is_Some (m !! id') <-> id' ∈ parents) ->
  m !! id = Some st ->
  forall id', is_Some (<[id := st']> m !! id') <-> id' ∈ parents.
Proof.
  intros Hdom Hl id'. rewrite lookup_insert_is_Some, <- Hdom.
  split.
  - intros [<-|[_ ?]]; [by eexists | done].
  - intros Hs. destruct (decide (id = id')); [by left | by right].
Qed.

Lemma step_tracks parents cs c t :
  tracks parents cs t -> call_id c ∈ parents ->
  exists t', step bufferBytes t c = Returned t' /\ tracks parents (cs ++ [c]) t'.
Proof.
  intros Htr Hin. pose proof Htr as [Hdom Hst]. destruct c as [id tbl|id key|id m|id pt|id err];
    simpl in Hin; simpl.
  - eexists; split; [done|]. eapply tracks_frame; [apply Process_parentState|done..].
  - eexists; split; [done|]. eapply tracks_frame; [apply RetractTable_parentState|done..].
  - destruct (proj2 (Hdom id) Hin) as [st Hl].
    rewrite (UpdateWatermark_registered _ _ _ _ Hl). simpl.
    eexists; split; [done|]. split; simpl.
    + by eapply tracks_insert_dom.
    + intros id' st'. rewrite watermarks_snoc, processing_times_snoc, app_nil_r.
      rewrite latest_snoc. destruct (decide (id = id')) as [<-|Hne].
      * rewrite lookup_insert_eq. intros [= <-]. simpl.
        destruct (Hst _ _ Hl) as (_ & Hp & Hf). split; [done|split; [done|]].
        rewrite Hf. split; intros [e He]; exists e.
        -- apply elem_of_app; by left.
        -- by apply elem_of_app in He as [He|He%list_elem_of_singleton].
      * rewrite lookup_insert_ne by done. intros Hl'.
        destruct (Hst _ _ Hl') as (Hm & Hp & Hf). split; [done|split; [done|]].
        rewrite Hf. split; intros [e He]; exists e.
        -- apply elem_of_app; by left.
        -- by apply elem_of_app in He as [He|He%list_elem_of_singleton].
  - destruct (proj2 (Hdom id) Hin) as [st Hl].
    rewrite (UpdateProcessingTime_registered _ _ _ _ Hl). simpl.
    eexists; split; [done|]. split; simpl.
    + by eapply tracks_insert_dom.
    + intros id' st'. rewrite watermarks_snoc, processing_times_snoc, app_nil_r.
      rewrite latest_snoc. destruct (decide (id = id')) as [<-|Hne].
      * rewrite lookup_insert_eq. intros [= <-]. simpl.
        destruct (Hst _ _ Hl) as (Hm & _ & Hf). split; [done|split; [done|]].
        rewrite Hf. split; intros [e He]; exists e.
        -- apply elem_of_app; by left.
        -- by apply elem_of_app in He as [He|He%list_elem_of_singleton].
      * rewrite lookup_insert_ne by done. intros Hl'.
        destruct (Hst _ _ Hl') as (Hm & Hp & Hf). split; [done|split; [done|]].
        rewrite Hf. split; intros [e He]; exists e.
        -- apply elem_of_app; by left.
        -- by apply elem_of_app in He as [He|He%list_elem_of_singleton].
  - destruct (proj2 (Hdom id) Hin) as [st Hl].
    unfold Finish. rewrite Hl. eexists; split; [done|]. split; simpl.
    + by eapply tracks_insert_dom.
    + intros id' st'. rewrite watermarks_snoc, processing_times_snoc, !app_nil_r.
      destruct (decide (id = id')) as [<-|Hne].
      * rewrite lookup_insert_eq. intros [= <-]. simpl.
        destruct (Hst _ _ Hl) as (Hm & Hp & _). split; [done|split; [done|]].
        split; [|done]. intros _. exists err. apply elem_of_app. right.
        by apply list_elem_of_singleton.
      * rewrite lookup_insert_ne by done. intros Hl'.
        destruct (Hst _ _ Hl') as (Hm & Hp & Hf). split; [done|split; [done|]].
        rewrite Hf. split; intros [e He]; exists e.
        -- apply elem_of_app; by left.
        -- apply elem_of_app in He as [He|He%list_elem_of_singleton]; [done|].
           congruence.
Qed.

Lemma New_tracks (d : D) mem parents :
  tracks parents [] (NewPartitionMergeTransformation d mem parents).
Proof.
  split; simpl.
  - intros id. rewrite register_parents_lookup. case_decide as Hin.
    + split; [done|]. intros _. by eexists.
    + rewrite lookup_empty. split; [by intros [? ?]|done].
  - intros id st. rewrite register_parents_lookup. case_decide as Hin.
    + intros [= <-]. simpl. split; [done|split; [done|]].
      split; [done|]. intros [e []%elem_of_nil].
    + by rewrite lookup_empty.
Qed.

(** A run of calls from registered parents returns, and the parent
    states track it. *)
Lemma run_tracks (d : D) mem parents cs :
  registered parents cs ->
  exists t, run bufferBytes (NewPartitionMergeTransformation d mem parents) cs
            = Returned t /\ tracks parents cs t.
Proof.
  induction cs as [|c cs IH] using rev_ind; intros Hreg.
  - eexists; split; [done|]. apply New_tracks.
  - apply Forall_app in Hreg as [Hreg Hc]. apply Forall_inv in Hc.
    destruct (IH Hreg) as (t & Hrun & Htr).
    destruct (step_tracks _ _ _ _ Htr Hc) as (t' & Hstep & Htr').
    exists t'. by rewrite run_snoc, Hrun.
Qed.

(** Whatever holds at construction and is kept by each call from a
    registered parent holds after the run. *)
Lemma run_invariant (d : D) mem parents
    (P : list Call -> PartitionMergeTransformation D -> Prop) :
  P [] (NewPartitionMergeTransformation d mem parents) ->
  (forall cs c t t',
     tracks parents cs t -> P cs t -> call_id c ∈ parents ->
     step bufferBytes t c = Returned t' -> tracks parents (cs ++ [c]) t' ->
     P (cs ++ [c]) t') ->
  forall cs, registered parents cs ->
  exists t, run bufferBytes (NewPartitionMergeTransformation d mem parents) cs
            = Returned t /\ tracks parents cs t /\ P cs t.
Proof.
  intros Hinit Hstep cs. induction cs as [|c cs IH] using rev_ind; intros Hreg.
  - eexists; split; [done|]. split; [apply New_tracks | done].
  - apply Forall_app in Hreg as [Hreg Hc]. apply Forall_inv in Hc.
    destruct (IH Hreg) as (t & Hrun & Htr & HP).
    destruct (step_tracks _ _ _ _ Htr Hc) as (t' & Hst & Htr').
    exists t'. rewrite run_snoc, Hrun. simpl. eauto.
Qed.

(** The minimum the loop computes is the minimum, over the registered
    parents, of the latest value each supplied. *)
Lemma tracks_min_mark parents cs t :
  tracks parents cs t -> times_in_range cs -> parents <> [] ->
  min_of_latest parents (watermarks cs) = Some (min_over mark (parentState t)).
Proof.
  intros [Hdom Hst] Hr Hne. unfold min_of_latest. apply list_min_spec. split.
  - apply list_elem_of_fmap.
    destruct (min_over_attained mark (parentState t)) as [Hmax|(id & st & Hl & Hv)].
    + destruct parents as [|p ps]; [done|].
      destruct (proj2 (Hdom p) ltac:(apply elem_of_cons; by left)) as [st Hl].
      exists p. split; [|apply elem_of_cons; by left].
      pose proof (min_over_le mark _ _ _ Hl) as Hle.
      destruct (Hst _ _ Hl) as (Hm & _).
      pose proof (latest_watermark_in_range cs p Hr) as [_ Hup]. lia.
    + exists id. destruct (Hst _ _ Hl) as (Hm & _). split; [congruence|].
      apply Hdom. by eexists.
  - intros x (id & -> & Hin)%list_elem_of_fmap.
    destruct (proj2 (Hdom id) Hin) as [st Hl]. destruct (Hst _ _ Hl) as (<- & _).
    by eapply min_over_le.
Qed.

Lemma tracks_min_processing parents cs t :
  tracks parents cs t -> times_in_range cs -> parents <> [] ->
  min_of_latest parents (processing_times cs)
  = Some (min_over processing (parentState t)).
Proof.
  intros [Hdom Hst] Hr Hne. unfold min_of_latest. apply list_min_spec. split.
  - apply list_elem_of_fmap.
    destruct (min_over_attained processing (parentState t))
      as [Hmax|(id & st & Hl & Hv)].
    + destruct parents as [|p ps]; [done|].
      destruct (proj2 (Hdom p) ltac:(apply elem_of_cons; by left)) as [st Hl].
      exists p. split; [|apply elem_of_cons; by left].
      pose proof (min_over_le processing _ _ _ Hl) as Hle.
      destruct (Hst _ _ Hl) as (_ & Hm & _).
      pose proof (latest_processing_in_range cs p Hr) as [_ Hup]. lia.
    + exists id. destruct (Hst _ _ Hl) as (_ & Hm & _). split; [congruence|].
      apply Hdom. by eexists.
  - intros x (id & -> & Hin)%list_elem_of_fmap.
    destruct (proj2 (Hdom id) Hin) as [st Hl]. destruct (Hst _ _ Hl) as (_ & <- & _).
    by eapply min_over_le.
Qed.

End Runs.

(** ** What the dataset receives *)

Section Observed.
Import Table Memory Execute Universe.
Context {D : Type} `{Dataset D}.
Variable bufferBytes : ColReader -> Z.
Implicit Types (t : PartitionMergeTransformation (Recorder D)) (cs : list Call).

(** What one call adds to the calls the dataset has received. *)
Lemma step_calls t c t' :
  step bufferBytes t c = Returned t' ->
  exists sent, calls (dataset t') = calls (dataset t) ++ sent /\
    match c with
    | DoProcess _ _ => sent = [] \/ exists out, sent = [CallProcess out]
    | DoRetractTable _ key => sent = [CallRetractTable key]
    | DoUpdateWatermark _ _ =>
        sent = [CallUpdateWatermark (min_over mark (parentState t'))]
    | DoUpdateProcessingTime _ _ =>
        sent = [CallUpdateProcessingTime (min_over processing (parentState t'))]
    | DoFinish _ err =>
        sent = match err with Some e => [CallFinish (Some e)] | None => [] end ++
               (if all_finished (parentState t') then [CallFinish None] else [])
    end.
Proof.
  destruct c as [id tbl|id key|id m|id pt|id err]; simpl.
  - intros [= <-]. unfold Process.
    destruct (Do tbl _ _) as [b [e|]]; simpl.
    { exists []. rewrite app_nil_r. auto. }
    exists [CallProcess (fst (BufferedBuilder.Table_ b))]. eauto.
  - intros [= <-]. by eexists.
  - unfold UpdateWatermark. destruct (parentState t !! id) as [st|]; [|done].
    simpl. intros [= <-]. by eexists.
  - unfold UpdateProcessingTime. destruct (parentState t !! id) as [st|]; [|done].
    simpl. intros [= <-]. by eexists.
  - unfold Finish. destruct (parentState t !! id) as [st|]; [|done].
    intros [= <-]. simpl. destruct err as [e|]; simpl.
    + destruct (all_finished _); simpl.
      * exists [CallFinish (Some e); CallFinish None]. by rewrite <- app_assoc.
      * by exists [CallFinish (Some e)].
    + destruct (all_finished _); simpl.
      * by exists [CallFinish None].
      * exists []. by rewrite app_nil_r.
Qed.

Lemma minima_so_far_snoc parents h x :
  minima_so_far parents (h ++ [x]) =
  minima_so_far parents h ++ [min_of_latest parents (h ++ [x])].
Proof.
  unfold minima_so_far. rewrite length_app. simpl.
  rewrite Nat.add_1_r, seq_S, map_app. simpl. f_equal.
  - apply map_ext_in. intros k Hk%in_seq. by rewrite take_app_le by lia.
  - by rewrite firstn_all2 by (rewrite length_app; simpl; lia).
Qed.

End Observed.

(** ** Watermark and processing time across parents *)

Section Minimum.
Import Table Memory Execute Universe.

Lemma forwarded_marks_app l l' :
  forwarded_marks (l ++ l') = forwarded_marks l ++ forwarded_marks l'.
Proof. apply omap_app. Qed.

Lemma forwarded_times_app l l' :
  forwarded_times (l ++ l') = forwarded_times l ++ forwarded_times l'.
Proof. apply omap_app. Qed.

Lemma forwarded_finishes_app l l' :
  forwarded_finishes (l ++ l') = forwarded_finishes l ++ forwarded_finishes l'.
Proof. apply omap_app. Qed.

Lemma registered_nonempty parents c : call_id c ∈ parents -> parents <> [].
Proof. intros Hin ->. by apply elem_of_nil in Hin. Qed.

(** C1, as the code has it: on a partition-merge transformation with
    any parents, after every sequence of calls from registered parents
    with times in the int64 range, the watermarks forwarded to the
    dataset are, call by call, the minimum over all registered parents of
    the latest watermark each supplied so far, a parent that supplied
    none yet counting as zero; the same holds for the processing times. *)
Theorem merge_forwards_minimum_of_latest
    {D : Type} `{Dataset D} (bufferBytes : ColReader -> Z)
    (d : D) (mem : Allocator) (parents : list N) (cs : list Call) :
  registered parents cs -> times_in_range cs ->
  exists t,
    run bufferBytes (observed d mem parents) cs = Returned t /\
    Some <$> forwarded_marks (calls (dataset t))
      = minima_so_far parents (watermarks cs) /\
    Some <$> forwarded_times (calls (dataset t))
      = minima_so_far parents (processing_times cs).
Proof.
  intros Hreg Hrange.
  destruct (run_invariant bufferBytes {| calls := []; inner := d |} mem parents
              (fun cs t => times_in_range cs ->
                 Some <$> forwarded_marks (calls (dataset t))
                   = minima_so_far parents (watermarks cs) /\
                 Some <$> forwarded_times (calls (dataset t))
                   = minima_so_far parents (processing_times cs)))
    with (cs := cs) as (t & Hrun & _ & HP); [done| |done|].
  - clear. intros cs c t t' Htr IH Hin Hstep Htr' Hr.
    apply Forall_app in Hr as Hr'. destruct Hr' as [Hr' _].
    destruct (IH Hr') as [IHm IHp].
    destruct (step_calls _ _ _ _ Hstep) as (sent & -> & Hsent).
    rewrite forwarded_marks_app, forwarded_times_app, !fmap_app, IHm, IHp.
    rewrite watermarks_snoc, processing_times_snoc.
    pose proof (registered_nonempty _ _ Hin) as Hne.
    destruct c as [id tbl|id key|id m|id pt|id err]; rewrite ?app_nil_r.
    + destruct Hsent as [->|[out ->]]; simpl; by rewrite !app_nil_r.
    + subst sent. simpl. by rewrite !app_nil_r.
    + subst sent. simpl. rewrite app_nil_r, minima_so_far_snoc. split; [|done].
      f_equal. f_equal. symmetry.
      rewrite <- (tracks_min_mark _ _ _ Htr' Hr Hne). by rewrite watermarks_snoc.
    + subst sent. simpl. rewrite app_nil_r, minima_so_far_snoc. split; [done|].
      f_equal. f_equal. symmetry.
      rewrite <- (tracks_min_processing _ _ _ Htr' Hr Hne).
      by rewrite processing_times_snoc.
    + subst sent. destruct err, (all_finished _); simpl; by rewrite !app_nil_r.
  - exists t. split; [done|]. by apply HP.
Qed.

End Minimum.

Section MinimumExamples.
Import Table Memory Execute Universe.

(** C1: two parents and three calls. *)
Lemma merge_forwards_minimum_of_latest_witness :
  let cs := [DoUpdateWatermark 1%N 10; DoUpdateProcessingTime 2%N 7;
             DoUpdateWatermark 2%N 4] in
  registered [1%N; 2%N] cs /\ times_in_range cs /\
  exists t,
    run (fun _ => 0) (observed tt {| Used := 0; Quota := 0 |} [1%N; 2%N]) cs
      = Returned t /\
    Some <$> forwarded_marks (calls (dataset t))
      = minima_so_far [1%N; 2%N] (watermarks cs) /\
    Some <$> forwarded_times (calls (dataset t))
      = minima_so_far [1%N; 2%N] (processing_times cs).
Proof.
  assert (Hreg : registered [1%N; 2%N]
            [DoUpdateWatermark 1%N 10; DoUpdateProcessingTime 2%N 7;
             DoUpdateWatermark 2%N 4]).
  { repeat constructor. }
  assert (Hr : times_in_range
            [DoUpdateWatermark 1%N 10; DoUpdateProcessingTime 2%N 7;
             DoUpdateWatermark 2%N 4]).
  { repeat constructor; unfold MinInt64, MaxInt64; lia. }
  split; [exact Hreg|]. split; [exact Hr|].
  exact (merge_forwards_minimum_of_latest (fun _ => 0) tt
           {| Used := 0; Quota := 0 |} [1%N; 2%N] _ Hreg Hr).
Defined.

(** C1 as stated fails: of two parents only parent 1 has supplied a
    watermark, 10, which is then the minimum of the latest values
    supplied so far; the dataset receives 0. *)
Lemma merge_minimum_counts_silent_parent :
  exists t,
    run (fun _ => 0) (observed tt {| Used := 0; Quota := 0 |} [1%N; 2%N])
        [DoUpdateWatermark 1%N 10] = Returned t /\
    forwarded_marks (calls (dataset t)) = [0] /\
    min_of_supplied [1%N; 2%N] (watermarks [DoUpdateWatermark 1%N 10]) = Some 10 /\
    last (forwarded_marks (calls (dataset t)))
      <> min_of_supplied [1%N; 2%N] (watermarks [DoUpdateWatermark 1%N 10]).
Proof.
  eexists. split; [vm_compute; reflexivity|].
  split; [vm_compute; reflexivity|]. split; [vm_compute; reflexivity|].
  vm_compute. discriminate.
Qed.

End MinimumExamples.

(** ** Monotonicity *)

Section Monotone.
Import Table Memory Execute Universe.

Lemma min_over_insert_mono (f : parallelParentState -> Z)
    (m : gmap N parallelParentState) id st st' :
  m !! id = Some st -> f st <= f st' ->
  min_over f m <= min_over f (<[id := st']> m).
Proof.
  intros Hl Hle. apply min_over_greatest; [apply min_over_bound|].
  intros id' st'' Hl'. destruct (decide (id = id')) as [<-|Hne].
  - rewrite lookup_insert_eq in Hl'. injection Hl' as <-.
    pose proof (min_over_le f _ _ _ Hl). lia.
  - rewrite lookup_insert_ne in Hl' by done. by eapply min_over_le.
Qed.

Lemma min_over_insert_same (f : parallelParentState -> Z)
    (m : gmap N parallelParentState) id st st' :
  m !! id = Some st -> f st' = f st ->
  min_over f (<[id := st']> m) = min_over f m.
Proof.
  intros Hl Heq. apply Z.le_antisymm.
  - assert (f st' <= f st) as Hle by lia.
    pose proof (min_over_insert_mono f (<[id := st']> m) id st' st
                  (lookup_insert_eq _ _ _) Hle) as Hmono.
    by rewrite insert_insert_eq, (insert_id m id st Hl) in Hmono.
  - eapply min_over_insert_mono; [done | lia].
Qed.

Lemma nondecreasing_app_l l l' : nondecreasing (l ++ l') -> nondecreasing l.
Proof.
  intros Hn i j a b Hij Ha Hb. apply (Hn i j); [done|..];
    by apply lookup_app_l_Some.
Qed.

Lemma nondecreasing_last l x y : nondecreasing (l ++ [x]) -> y ∈ l -> y <= x.
Proof.
  intros Hn [i Hi]%list_elem_of_lookup. pose proof (lookup_lt_Some _ _ _ Hi).
  apply (Hn i (length l)); [lia | by apply lookup_app_l_Some |].
  by rewrite lookup_app_r, Nat.sub_diag.
Qed.

(** What a parent that never goes back supplies is at least its latest
    value, and at least zero. *)
Lemma advance_snoc h id v :
  parents_advance (h ++ [(id, v)]) ->
  parents_advance h /\ default 0 (latest id h) <= v.
Proof.
  intros Hadv. split.
  - intros id'. specialize (Hadv id'). rewrite supplied_snoc in Hadv.
    case_decide; [|done]. rewrite app_comm_cons in Hadv.
    by apply nondecreasing_app_l in Hadv.
  - specialize (Hadv id). rewrite supplied_snoc, decide_True in Hadv by done.
    rewrite app_comm_cons in Hadv. apply (nondecreasing_last _ _ _ Hadv).
    unfold latest. destruct (supplied id h) as [|a l] eqn:Hs using rev_ind.
    + simpl. apply elem_of_cons. by left.
    + rewrite last_snoc. simpl. apply elem_of_cons. right.
      apply elem_of_app. right. by apply list_elem_of_singleton.
Qed.

(** C6, as the code has it: when no parent goes back, that is each
    parent's watermarks (resp. processing times) start at or above zero
    and never decrease, the watermarks (resp. processing times) the
    dataset receives never decrease. *)
Theorem merge_forwards_nondecreasing
    {D : Type} `{Dataset D} (bufferBytes : ColReader -> Z)
    (d : D) (mem : Allocator) (parents : list N) (cs : list Call) :
  registered parents cs ->
  parents_advance (watermarks cs) -> parents_advance (processing_times cs) ->
  exists t,
    run bufferBytes (observed d mem parents) cs = Returned t /\
    nondecreasing (forwarded_marks (calls (dataset t))) /\
    nondecreasing (forwarded_times (calls (dataset t))).
Proof.
  intros Hreg Hw Hp.
  pose (bounded := fun (l : list Z) (z : Z) => forall y, y ∈ l -> y <= z).
  destruct (run_invariant bufferBytes {| calls := []; inner := d |} mem parents
              (fun cs t =>
                 parents_advance (watermarks cs) ->
                 parents_advance (processing_times cs) ->
                 (nondecreasing (forwarded_marks (calls (dataset t))) /\
                  bounded (forwarded_marks (calls (dataset t)))
                          (min_over mark (parentState t))) /\
                 (nondecreasing (forwarded_times (calls (dataset t))) /\
                  bounded (forwarded_times (calls (dataset t)))
                          (min_over processing (parentState t)))))
    with (cs := cs) as (t & Hrun & _ & HP); [| |done|].
  - intros _ _. simpl. split; (split; [by intros i j a b _ Ha|by intros y Hy%elem_of_nil]).
  - clear -bounded. intros cs c t t' [Hdom Hst] IH Hin Hstep Htr' Hw Hp.
    destruct (step_calls _ _ _ _ Hstep) as (sent & -> & Hsent).
    rewrite forwarded_marks_app, forwarded_times_app.
    rewrite watermarks_snoc in Hw. rewrite processing_times_snoc in Hp.
    destruct (proj2 (Hdom _) Hin) as [st Hl]. destruct (Hst _ _ Hl) as (Hm & Hpt & _).
    destruct c as [id tbl|id key|id m|id pt|id err]; simpl in *;
      rewrite ?app_nil_r in Hw; rewrite ?app_nil_r in Hp.
    + injection Hstep as <-. rewrite Process_parentState.
      destruct Hsent as [->|[out ->]]; simpl; rewrite !app_nil_r; by apply IH.
    + injection Hstep as <-. subst sent. simpl. rewrite !app_nil_r. by apply IH.
    + rewrite (UpdateWatermark_registered _ _ _ _ Hl) in Hstep. simpl in Hstep.
      injection Hstep as <-. subst sent. simpl in *. rewrite app_nil_r.
      apply advance_snoc in Hw as [Hw Hle]. destruct (IH Hw Hp) as [[Hn Hb] Hproc].
      rewrite (min_over_insert_same processing _ id st _ Hl) by done. split; [|done].
      assert (min_over mark (parentState t) <=
              min_over mark (<[id := {| mark := m; processing := processing st;
                                       finished := finished st |}]> (parentState t))).
      { eapply min_over_insert_mono; [done|]. simpl. lia. }
      split.
      * apply nondecreasing_snoc; [done|]. intros y Hy. specialize (Hb _ Hy). lia.
      * intros y [Hy|Hy%list_elem_of_singleton]%elem_of_app; [|subst y; lia].
        specialize (Hb _ Hy). lia.
    + rewrite (UpdateProcessingTime_registered _ _ _ _ Hl) in Hstep. simpl in Hstep.
      injection Hstep as <-. subst sent. simpl in *. rewrite app_nil_r.
      apply advance_snoc in Hp as [Hp Hle]. destruct (IH Hw Hp) as [Hmark [Hn Hb]].
      rewrite (min_over_insert_same mark _ id st _ Hl) by done. split; [done|].
      assert (min_over processing (parentState t) <=
              min_over processing (<[id := {| mark := mark st; processing := pt;
                                       finished := finished st |}]> (parentState t))).
      { eapply min_over_insert_mono; [done|]. simpl. lia. }
      split.
      * apply nondecreasing_snoc; [done|]. intros y Hy. specialize (Hb _ Hy). lia.
      * intros y [Hy|Hy%list_elem_of_singleton]%elem_of_app; [|subst y; lia].
        specialize (Hb _ Hy). lia.
    + unfold Finish in Hstep. rewrite Hl in Hstep. injection Hstep as <-.
      subst sent. simpl in *.
      rewrite (min_over_insert_same mark _ id st _ Hl) by done.
      rewrite (min_over_insert_same processing _ id st _ Hl) by done.
      assert (forall l, forwarded_marks (l ++ (if all_finished
                (<[id := {| mark := mark st; processing := processing st;
                            finished := true |}]> (parentState t))
                then [CallFinish None] else [])) = forwarded_marks l) as Em.
      { intros l. rewrite forwarded_marks_app. destruct (all_finished _); simpl;
          by rewrite app_nil_r. }
      assert (forall l, forwarded_times (l ++ (if all_finished
                (<[id := {| mark := mark st; processing := processing st;
                            finished := true |}]> (parentState t))
                then [CallFinish None] else [])) = forwarded_times l) as Et.
      { intros l. rewrite forwarded_times_app. destruct (all_finished _); simpl;
          by rewrite app_nil_r. }
      rewrite Em, Et. destruct err; simpl; rewrite !app_nil_r; by apply IH.
  - exists t. split; [done|]. destruct (HP Hw Hp) as [[? _] [? _]]. done.
Qed.

End Monotone.

Section MonotoneExamples.
Import Table Memory Execute Universe.

Lemma nondecreasingb_sound l : nondecreasingb l = true -> nondecreasing l.
Proof.
  induction l as [|x l IH]; [by intros _ i j a b _ Ha|].
  intros Hb.
  assert (nondecreasing l /\ forall y, l !! 0%nat = Some y -> x <= y) as [Hn Hx].
  { destruct l as [|y l]; [split; [by apply IH | done]|].
    simpl in Hb. apply andb_true_iff in Hb as [Hxy Hb].
    split; [by apply IH|]. intros y' [= <-]. lia. }
  intros i j a b Hij Ha Hb'. destruct i as [|i], j as [|j]; simpl in *.
  - assert (a = b) by congruence. lia.
  - injection Ha as <-. destruct l as [|y l]; [done|].
    specialize (Hx y eq_refl).
    assert (y <= b); [|lia]. apply (Hn 0%nat j); [lia|done..].
  - lia.
  - apply (Hn i j); [lia|done..].
Qed.

(** C6: two parents that only move forward. *)
Lemma merge_forwards_nondecreasing_witness :
  let cs := [DoUpdateWatermark 1%N 10; DoUpdateWatermark 2%N 10;
             DoUpdateWatermark 1%N 12; DoUpdateProcessingTime 1%N 3] in
  registered [1%N; 2%N] cs /\
  parents_advance (watermarks cs) /\ parents_advance (processing_times cs) /\
  exists t,
    run (fun _ => 0) (observed tt {| Used := 0; Quota := 0 |} [1%N; 2%N]) cs
      = Returned t /\
    nondecreasing (forwarded_marks (calls (dataset t))) /\
    nondecreasing (forwarded_times (calls (dataset t))).
Proof.
  assert (Hreg : registered [1%N; 2%N]
            [DoUpdateWatermark 1%N 10; DoUpdateWatermark 2%N 10;
             DoUpdateWatermark 1%N 12; DoUpdateProcessingTime 1%N 3]).
  { repeat constructor. }
  assert (Hw : parents_advance (watermarks
            [DoUpdateWatermark 1%N 10; DoUpdateWatermark 2%N 10;
             DoUpdateWatermark 1%N 12; DoUpdateProcessingTime 1%N 3])).
  { intros id. apply nondecreasingb_sound. cbn -[N.eqb].
    destruct (1 =? id)%N, (2 =? id)%N; reflexivity. }
  assert (Hp : parents_advance (processing_times
            [DoUpdateWatermark 1%N 10; DoUpdateWatermark 2%N 10;
             DoUpdateWatermark 1%N 12; DoUpdateProcessingTime 1%N 3])).
  { intros id. apply nondecreasingb_sound. cbn -[N.eqb].
    destruct (1 =? id)%N; reflexivity. }
  split; [exact Hreg|]. split; [exact Hw|]. split; [exact Hp|].
  exact (merge_forwards_nondecreasing (fun _ => 0) tt
           {| Used := 0; Quota := 0 |} [1%N; 2%N] _ Hreg Hw Hp).
Defined.

(** C6 as stated fails: parent 1 supplies 10, parent 2 supplies 10, then
    parent 1 supplies 5; the dataset receives 0, 10 and then 5. *)
Lemma merge_forwards_a_parent_going_back :
  exists t,
    run (fun _ => 0) (observed tt {| Used := 0; Quota := 0 |} [1%N; 2%N])
        [DoUpdateWatermark 1%N 10; DoUpdateWatermark 2%N 10;
         DoUpdateWatermark 1%N 5] = Returned t /\
    forwarded_marks (calls (dataset t)) = [0; 10; 5] /\
    ~ nondecreasing (forwarded_marks (calls (dataset t))).
Proof.
  eexists. split; [vm_compute; reflexivity|].
  split; [vm_compute; reflexivity|].
  intros Hn. specialize (Hn 1%nat 2%nat 10 5). vm_compute in Hn.
  assert (10 <= 5) as Habs; [|lia].
  apply Z.leb_le. destruct (10 <=? 5) eqn:E; [done|]. exfalso.
  apply Hn; [apply Nat.leb_le|..]; reflexivity.
Qed.

End MonotoneExamples.

(** ** Completion *)

Section Completion.
Import Table Memory Execute Universe.

Lemma error_free_finish cs id err :
  error_free cs -> DoFinish id err ∈ cs -> err = None.
Proof.
  unfold error_free. rewrite Forall_forall. intros Hef Hin.
  specialize (Hef _ Hin). by destruct err.
Qed.

(** C2: on a partition-merge transformation observed from its
    construction, after any sequence of calls from registered parents in
    which every [Finish] carries a nil error, the dataset has received a
    [Finish] only if every registered parent has called [Finish(id, nil)]
    in that sequence.  As this holds after every prefix of a run, no
    [Finish] reaches the dataset before the last parent has finished. *)
Theorem merge_finishes_only_after_every_parent
    {D : Type} `{Dataset D} (bufferBytes : ColReader -> Z)
    (d : D) (mem : Allocator) (parents : list N) (cs : list Call) :
  registered parents cs -> error_free cs ->
  exists t,
    run bufferBytes (observed d mem parents) cs = Returned t /\
    forall err, CallFinish err ∈ calls (dataset t) ->
      forall id, id ∈ parents -> DoFinish id None ∈ cs.
Proof.
  intros Hreg Hef.
  destruct (run_invariant bufferBytes {| calls := []; inner := d |} mem parents
              (fun cs t => error_free cs ->
                 forall err, CallFinish err ∈ calls (dataset t) ->
                   forall id, id ∈ parents -> DoFinish id None ∈ cs))
    with (cs := cs) as (t & Hrun & _ & HP); [| |done|].
  - intros _ err Hin. by apply elem_of_nil in Hin.
  - clear. intros cs c t t' Htr IH Hin Hstep [Hdom' Hst'] Hef err Hcall id Hid.
    pose proof Hef as Hef'. apply Forall_app in Hef' as [Hef' _].
    destruct (step_calls _ _ _ _ Hstep) as (sent & Hcalls & Hsent).
    rewrite Hcalls in Hcall. apply elem_of_app in Hcall as [Hcall|Hcall].
    { apply elem_of_app. left. by eapply IH. }
    assert (all_finished (parentState t') = true) as Hall.
    { destruct c as [id' tbl|id' key|id' m|id' pt|id' e]; subst.
      - destruct Hsent as [->|[out ->]];
          [by apply elem_of_nil in Hcall | by apply list_elem_of_singleton in Hcall].
      - by apply list_elem_of_singleton in Hcall.
      - by apply list_elem_of_singleton in Hcall.
      - by apply list_elem_of_singleton in Hcall.
      - destruct (all_finished _); [done|]. rewrite app_nil_r in Hcall.
        destruct e; [|by apply elem_of_nil in Hcall].
        exfalso. apply Forall_app in Hef as [_ Hc]. by apply Forall_inv in Hc. }
    destruct (proj2 (Hdom' id) Hid) as [st Hl].
    pose proof (proj1 (all_finished_true _) Hall _ _ Hl) as Hfin.
    destruct (Hst' _ _ Hl) as (_ & _ & Hf). destruct (proj1 Hf Hfin) as [e He].
    by rewrite (error_free_finish _ _ _ Hef He) in He.
  - exists t. split; [done|]. by apply HP.
Qed.

(** The other half of the fan-in rule: the [Finish] of the last parent
    to finish does reach the dataset. *)
Lemma merge_finishes_with_last_parent
    {D : Type} `{Dataset D} (t : PartitionMergeTransformation (Recorder D))
    (id : N) (st : parallelParentState) :
  parentState t !! id = Some st ->
  (forall id' st', id' <> id -> parentState t !! id' = Some st' ->
                   finished st' = true) ->
  exists t', Finish t id None = Returned t' /\
    calls (dataset t') = calls (dataset t) ++ [CallFinish None].
Proof.
  intros Hl Hothers. unfold Finish. rewrite Hl. eexists; split; [done|]. simpl.
  replace (all_finished _) with true; [done|]. symmetry.
  apply all_finished_true. intros id' st'. destruct (decide (id = id')) as [<-|Hne].
  - rewrite lookup_insert_eq. by intros [= <-].
  - rewrite lookup_insert_ne by done. intros Hl'. eapply Hothers; [|done]. congruence.
Qed.

(** X1: a failing registered parent is marked finished and its error
    reaches the dataset at once; a nil completion follows it in the same
    call when every other parent was marked finished before the call,
    and nothing follows it when some other parent was not. *)
Lemma merge_finish_with_error
    {D : Type} `{Dataset D} (t : PartitionMergeTransformation (Recorder D))
    (id : N) (st : parallelParentState) (e : error) :
  parentState t !! id = Some st ->
  exists t', Finish t id (Some e) = Returned t' /\
    parentState t' = <[id := {| mark := mark st; processing := processing st;
                                finished := true |}]> (parentState t) /\
    ((forall id' st', id' <> id -> parentState t !! id' = Some st' ->
                      finished st' = true) ->
     calls (dataset t') =
       calls (dataset t) ++ [CallFinish (Some e); CallFinish None]) /\
    (forall id' st', id' <> id -> parentState t !! id' = Some st' ->
       finished st' = false ->
       calls (dataset t') = calls (dataset t) ++ [CallFinish (Some e)]).
Proof.
  intros Hl. unfold Finish. rewrite Hl. eexists; split; [done|]. simpl.
  split; [done|]. split.
  - intros Hothers. replace (all_finished _) with true.
    { simpl. by rewrite <- app_assoc. }
    symmetry. apply all_finished_true. intros id' st'.
    destruct (decide (id = id')) as [<-|Hne].
    + rewrite lookup_insert_eq. by intros [= <-].
    + rewrite lookup_insert_ne by done. intros Hl'. eapply Hothers; [|done].
      congruence.
  - intros id' st' Hne Hl' Hf. replace (all_finished _) with false; [done|].
    symmetry. apply not_true_is_false. intros Hall.
    rewrite all_finished_true in Hall. specialize (Hall id' st').
    rewrite lookup_insert_ne in Hall by congruence. rewrite (Hall Hl') in Hf. done.
Qed.

(** C3 fails on the code: of two parents the second has finished, then
    the first finishes with an error; the dataset receives that error
    and then a nil completion, both from the one call. *)
Theorem merge_finish_error_is_followed_by_nil :
  exists t0 t,
    run (fun _ => 0) (observed tt {| Used := 0; Quota := 0 |} [1%N; 2%N])
        [DoFinish 2%N None] = Returned t0 /\
    calls (dataset t0) = [] /\
    Finish t0 1%N (Some "boom") = Returned t /\
    calls (dataset t) = [CallFinish (Some "boom"); CallFinish None] /\
    forwarded_finishes (calls (dataset t)) = [Some "boom"; None].
Proof.
  eexists. eexists. split; [vm_compute; reflexivity|].
  split; [reflexivity|]. split; [vm_compute; reflexivity|].
  split; reflexivity.
Qed.

(** X1: the first of two parents fails while the second is running:
    the dataset receives the error and nothing else. *)
Lemma merge_finish_with_error_witness :
  parentState (observed tt {| Used := 0; Quota := 0 |} [1%N; 2%N]) !! 1%N
    = Some zero_state /\
  exists t',
    Finish (observed tt {| Used := 0; Quota := 0 |} [1%N; 2%N]) 1%N (Some "boom")
      = Returned t' /\
    calls (dataset t') = [CallFinish (Some "boom")].
Proof.
  assert (Hl : parentState (observed tt {| Used := 0; Quota := 0 |} [1%N; 2%N])
                 !! 1%N = Some zero_state) by (vm_compute; reflexivity).
  assert (Hl2 : parentState (observed tt {| Used := 0; Quota := 0 |} [1%N; 2%N])
                  !! 2%N = Some zero_state) by (vm_compute; reflexivity).
  split; [exact Hl|].
  destruct (merge_finish_with_error _ 1%N zero_state "boom" Hl)
    as (t' & Hfin & _ & _ & Hrunning).
  exists t'. split; [exact Hfin|].
  apply (Hrunning 2%N zero_state); [discriminate | exact Hl2 | reflexivity].
Defined.

(** X2: of two parents the second has finished; the first finishes. *)
Lemma merge_finishes_with_last_parent_witness :
  exists t0,
    run (fun _ => 0) (observed tt {| Used := 0; Quota := 0 |} [1%N; 2%N])
        [DoFinish 2%N None] = Returned t0 /\
    calls (dataset t0) = [] /\
    parentState t0 !! 1%N = Some zero_state /\
    parentState t0 !! 2%N
      = Some {| mark := 0; processing := 0; finished := true |} /\
    (forall id' st', id' <> 1%N -> parentState t0 !! id' = Some st' ->
                     finished st' = true) /\
    exists t',
      Finish t0 1%N None = Returned t' /\
      calls (dataset t') = calls (dataset t0) ++ [CallFinish None].
Proof.
  destruct (run_tracks (fun _ => 0) {| calls := []; inner := tt |}
              {| Used := 0; Quota := 0 |} [1%N; 2%N] [DoFinish 2%N None])
    as (t0 & Hrun & Hdom & Hst); [repeat constructor|].
  exists t0.
  assert (Hc : calls (dataset t0) = []).
  { vm_compute in Hrun. by injection Hrun as <-. }
  assert (Hl1 : parentState t0 !! 1%N = Some zero_state).
  { vm_compute in Hrun. by injection Hrun as <-. }
  assert (Hl2 : parentState t0 !! 2%N
                = Some {| mark := 0; processing := 0; finished := true |}).
  { vm_compute in Hrun. by injection Hrun as <-. }
  assert (Hothers : forall id' st', id' <> 1%N ->
            parentState t0 !! id' = Some st' -> finished st' = true).
  { intros id' st' Hne Hl'.
    assert (id' ∈ [1%N; 2%N]) as Hin by (apply Hdom; by eexists).
    apply elem_of_cons in Hin as [->|Hin]; [done|].
    apply list_elem_of_singleton in Hin as ->.
    rewrite Hl2 in Hl'. by injection Hl' as <-. }
  split; [exact Hrun|]. split; [exact Hc|]. split; [exact Hl1|].
  split; [exact Hl2|]. split; [exact Hothers|].
  exact (merge_finishes_with_last_parent t0 1%N zero_state Hl1 Hothers).
Defined.

(** C2: two parents finish one after the other. *)
Lemma merge_finishes_only_after_every_parent_witness :
  let cs := [DoFinish 1%N None; DoUpdateWatermark 2%N 5; DoFinish 2%N None] in
  registered [1%N; 2%N] cs /\ error_free cs /\
  exists t,
    run (fun _ => 0) (observed tt {| Used := 0; Quota := 0 |} [1%N; 2%N]) cs
      = Returned t /\
    forall err, CallFinish err ∈ calls (dataset t) ->
      forall id, id ∈ [1%N; 2%N] -> DoFinish id None ∈ cs.
Proof.
  assert (Hreg : registered [1%N; 2%N]
            [DoFinish 1%N None; DoUpdateWatermark 2%N 5; DoFinish 2%N None]).
  { repeat constructor. }
  assert (Hef : error_free
            [DoFinish 1%N None; DoUpdateWatermark 2%N 5; DoFinish 2%N None]).
  { repeat constructor. }
  split; [exact Hreg|]. split; [exact Hef|].
  exact (merge_finishes_only_after_every_parent (fun _ => 0) tt
           {| Used := 0; Quota := 0 |} [1%N; 2%N] _ Hreg Hef).
Defined.

End Completion.

(** ** The parent-state map *)

Section ParentMap.
Import Table Memory Execute Universe.
Context {D : Type} `{Dataset D}.
Variable bufferBytes : ColReader -> Z.

Lemma dom_insert_present (m : gmap N parallelParentState) id st st' :
  m !! id = Some st -> dom (<[id := st']> m) = dom m.
Proof.
  intros Hl. rewrite dom_insert_L. apply set_eq. intros id'.
  rewrite elem_of_union, elem_of_singleton. split; [|by right].
  intros [->|Hin]; [|done]. apply elem_of_dom. by eexists.
Qed.

Lemma step_dom (t t' : PartitionMergeTransformation D) c :
  step bufferBytes t c = Returned t' -> dom (parentState t') = dom (parentState t).
Proof.
  destruct c as [id tbl|id key|id m|id pt|id err]; simpl.
  - intros [= <-]. by rewrite Process_parentState.
  - intros [= <-]. by rewrite RetractTable_parentState.
  - destruct (parentState t !! id) as [st|] eqn:Hl.
    + rewrite (UpdateWatermark_registered _ _ _ _ Hl). simpl. intros [= <-]. simpl.
      by eapply dom_insert_present.
    + unfold UpdateWatermark. by rewrite Hl.
  - destruct (parentState t !! id) as [st|] eqn:Hl.
    + rewrite (UpdateProcessingTime_registered _ _ _ _ Hl). simpl. intros [= <-].
      simpl. by eapply dom_insert_present.
    + unfold UpdateProcessingTime. by rewrite Hl.
  - unfold Finish. destruct (parentState t !! id) as [st|] eqn:Hl; [|done].
    intros [= <-]. simpl. by eapply dom_insert_present.
Qed.

Lemma run_dom cs (t t' : PartitionMergeTransformation D) :
  run bufferBytes t cs = Returned t' -> dom (parentState t') = dom (parentState t).
Proof.
  revert t. induction cs as [|c cs IH]; intros t; simpl.
  - by intros [= <-].
  - destruct (step bufferBytes t c) as [t1|] eqn:Hstep; simpl; [|done].
    intros Hrun. rewrite (IH _ Hrun). by eapply step_dom.
Qed.

(** C9: the keys of the parent-state map are the parent ids given at
    construction, and stay so through every run that returns, as every
    run of calls from those parents does; with such a map, [UpdateWatermark], [UpdateProcessingTime] and [Finish] return
    for a parent id given at construction and panic on a nil pointer for
    any other id. *)
Theorem merge_parent_states_are_the_registered_parents
    (d : D) (mem : Allocator) (parents : list N) (cs : list Call)
    (t : PartitionMergeTransformation D) (id : N) :
  dom (parentState (NewPartitionMergeTransformation d mem parents))
    = list_to_set parents /\
  (registered parents cs ->
   exists t0, run bufferBytes (NewPartitionMergeTransformation d mem parents) cs
              = Returned t0) /\
  (run bufferBytes (NewPartitionMergeTransformation d mem parents) cs = Returned t ->
   dom (parentState t) = list_to_set parents /\
   (id ∈ parents ->
      (forall m, exists r, UpdateWatermark t id m = Returned r) /\
      (forall pt, exists r, UpdateProcessingTime t id pt = Returned r) /\
      (forall err, exists t', Finish t id err = Returned t')) /\
   (id ∉ parents ->
      (forall m, UpdateWatermark t id m = Panicked nil_dereference) /\
      (forall pt, UpdateProcessingTime t id pt = Panicked nil_dereference) /\
      (forall err, Finish t id err = Panicked nil_dereference))).
Proof.
  split; [apply register_parents_dom|]. split.
  { intros Hreg. destruct (run_tracks bufferBytes d mem parents cs Hreg)
      as (t0 & Hrun & _). by exists t0. }
  intros Hrun.
  assert (dom (parentState t) = list_to_set parents) as Hdom.
  { rewrite (run_dom _ _ _ Hrun). apply register_parents_dom. }
  split; [done|]. split.
  - intros Hin.
    assert (is_Some (parentState t !! id)) as [st Hl].
    { apply elem_of_dom. rewrite Hdom. by apply elem_of_list_to_set. }
    split; [|split].
    + intros m. rewrite (UpdateWatermark_registered _ _ _ _ Hl). by eexists.
    + intros pt. rewrite (UpdateProcessingTime_registered _ _ _ _ Hl). by eexists.
    + intros err. unfold Finish. rewrite Hl. by eexists.
  - intros Hnin.
    assert (parentState t !! id = None) as Hl.
    { apply not_elem_of_dom. rewrite Hdom. by rewrite elem_of_list_to_set. }
    unfold UpdateWatermark, UpdateProcessingTime, Finish. by rewrite Hl.
Qed.

(** C7: [RetractTable] hands the group key to the dataset's
    [RetractTable], returns what that call returns, and leaves the parent
    states (and the allocator) as they were, whoever the caller is. *)
Theorem merge_retract_passes_through
    (t : PartitionMergeTransformation (Recorder D)) (id : N) (key : GroupKey) :
  let (t', r) := RetractTable t id key in
  calls (dataset t') = calls (dataset t) ++ [CallRetractTable key] /\
  (inner (dataset t'), r) = ds_RetractTable (inner (dataset t)) key /\
  parentState t' = parentState t /\
  alloc t' = alloc t.
Proof.
  unfold RetractTable. simpl.
  destruct (ds_RetractTable (inner (dataset t)) key) as [d' r']. simpl.
  repeat split.
Qed.

End ParentMap.

(** ** Tables pass through *)

Section Passthrough.
Import Table Memory Execute Universe.
Context {D : Type} `{Dataset D}.
Variable bufferBytes : ColReader -> Z.



End Passthrough.

Section PassthroughExamples.
Import Table Memory Execute Universe.



End PassthroughExamples.

(** ** Attribute validation *)

Section Validator.
Import Plan.

Lemma first_failure_None {E} (check : string -> PhysicalAttr -> option E)
    (m : gmap string PhysicalAttr) :
  first_failure check m = None <->
  forall key attr, m !! key = Some attr -> check key attr = None.
Proof.
  unfold first_failure.
  apply (map_fold_weak_ind
           (fun r m => r = None <->
              forall key attr, m !! key = Some attr -> check key attr = None)).
  - split; [|done]. intros _ key attr Hl. by rewrite lookup_empty in Hl.
  - intros key attr m' r Hfresh IH. destruct r as [e|].
    + split; [done|]. intros Hall. apply IH. intros k a Hl. apply Hall.
      rewrite lookup_insert_ne; [done|]. intros ->. congruence.
    + split.
      * intros Hc k a Hl. destruct (decide (key = k)) as [<-|Hne].
        -- rewrite lookup_insert_eq in Hl. by injection Hl as <-.
        -- rewrite lookup_insert_ne in Hl by done. by apply (proj1 IH).
      * intros Hall. apply Hall. by rewrite lookup_insert_eq.
Qed.

Lemma first_failure_Some {E} (check : string -> PhysicalAttr -> option E)
    (m : gmap string PhysicalAttr) e :
  first_failure check m = Some e ->
  exists key attr, m !! key = Some attr /\ check key attr = Some e.
Proof.
  unfold first_failure. revert e.
  apply (map_fold_weak_ind
           (fun r m => forall e, r = Some e ->
              exists key attr, m !! key = Some attr /\ check key attr = Some e)).
  - done.
  - intros key attr m' r Hfresh IH e. destruct r as [e'|].
    + intros [= <-]. destruct (IH _ eq_refl) as (k & a & Hl & Hc).
      exists k, a. split; [|done]. rewrite lookup_insert_ne; [done|].
      intros ->. congruence.
    + intros Hc. exists key, attr. by rewrite lookup_insert_eq.
Qed.

Lemma check_required_None pred succ :
  check_required pred succ = None <->
  forall key attr, RequiredAttrs succ !! key = Some attr ->
                   OutputAttrs pred !! key = Some attr.
Proof.
  unfold check_required. rewrite first_failure_None. split.
  - intros Hall key attr Hl. specialize (Hall _ _ Hl).
    destruct (OutputAttrs pred !! key) as [out|]; [|done].
    destruct (decide (out = attr)); [congruence|done].
  - intros Hall key attr Hl. rewrite (Hall _ _ Hl). by rewrite decide_True.
Qed.

Lemma check_output_None must pred succ :
  check_output must pred succ = None <->
  forall key attr, OutputAttrs pred !! key = Some attr -> must attr = true ->
                   is_Some (RequiredAttrs succ !! key).
Proof.
  unfold check_output. rewrite first_failure_None. split.
  - intros Hall key attr Hl Hm. specialize (Hall _ _ Hl). rewrite Hm in Hall.
    by destruct (RequiredAttrs succ !! key).
  - intros Hall key attr Hl. destruct (must attr) eqn:Hm; [|done].
    by destruct (Hall _ _ Hl Hm) as [? ->].
Qed.

Lemma first_edge_failure_None must es :
  first_edge_failure must es = None <->
  forall pred succ, (pred, succ) ∈ es -> check_edge must pred succ = None.
Proof.
  induction es as [|[pred succ] es IH]; simpl.
  - split; [|done]. intros _ p s Hin. by apply elem_of_nil in Hin.
  - destruct (check_edge must pred succ) as [e|] eqn:Hc.
    + split; [done|]. intros Hall.
      rewrite (Hall pred succ) in Hc; [done|]. apply elem_of_cons. by left.
    + rewrite IH. split.
      * intros Hall p s [[= -> ->]|Hin]%elem_of_cons; [done|]. by apply Hall.
      * intros Hall p s Hin. apply Hall. apply elem_of_cons. by right.
Qed.

Lemma first_edge_failure_Some must es e :
  first_edge_failure must es = Some e ->
  exists pred succ, (pred, succ) ∈ es /\ check_edge must pred succ = Some e.
Proof.
  induction es as [|[pred succ] es IH]; simpl; [done|].
  destruct (check_edge must pred succ) as [e'|] eqn:Hc.
  - intros [= <-]. exists pred, succ. split; [|done]. apply elem_of_cons. by left.
  - intros (p & s & Hin & Hc')%IH. exists p, s. split; [|done].
    apply elem_of_cons. by right.
Qed.

Lemma check_edge_None must pred succ :
  check_edge must pred succ = None <->
  check_required pred succ = None /\ check_output must pred succ = None.
Proof.
  unfold check_edge. destruct (check_required pred succ); [|tauto].
  split; [done|]. by intros [? _].
Qed.

(** A validation with any rule on the binding outputs accepts the plans
    that are consistent in that sense, and no other. *)
Lemma ValidateAttributesWith_None must p :
  ValidateAttributesWith must p = None <->
  required_are_matched p /\
  (forall pred succ key attr,
     is_edge p pred succ -> OutputAttrs pred !! key = Some attr ->
     must attr = true -> is_Some (RequiredAttrs succ !! key)).
Proof.
  unfold ValidateAttributesWith. rewrite first_edge_failure_None. split.
  - intros Hall. split.
    + intros pred succ key attr Hedge.
      by apply check_required_None, (proj1 (check_edge_None _ _ _) (Hall _ _ Hedge)).
    + intros pred succ key attr Hedge.
      by apply (check_output_None must), (proj1 (check_edge_None _ _ _) (Hall _ _ Hedge)).
  - intros [Hreq Hout] pred succ Hedge. apply check_edge_None. split.
    + apply check_required_None. intros key attr. by apply Hreq.
    + apply check_output_None. intros key attr. by apply Hout.
Qed.

Lemma ValidateAttributesWith_Some must p e :
  ValidateAttributesWith must p = Some e -> describes p e.
Proof.
  unfold ValidateAttributesWith.
  intros (pred & succ & Hedge & Hc)%first_edge_failure_Some.
  exists pred, succ. unfold check_edge in Hc.
  destruct (check_required pred succ) as [e'|] eqn:Hreq.
  - injection Hc as ->. unfold check_required in Hreq.
    apply first_failure_Some in Hreq as (key & attr & Hl & Hcheck).
    exists key. split; [done|].
    destruct (OutputAttrs pred !! key) as [out|] eqn:Hout.
    + destruct (decide (out = attr)) as [|Hne]; [done|]. injection Hcheck as <-.
      right. right. split; [done|]. by exists attr, out.
    + injection Hcheck as <-. left. split; [done|]. split; [by eexists | done].
  - unfold check_output in Hc.
    apply first_failure_Some in Hc as (key & attr & Hl & Hcheck).
    exists key. split; [done|]. destruct (must attr); [|done].
    destruct (RequiredAttrs succ !! key) eqn:Hr; [done|]. injection Hcheck as <-.
    right. left. split; [done|]. split; [by eexists | done].
Qed.

(** C4, as the fixtures have it: validation returns nil exactly on the
    plans in which every attribute a successor requires is an equal
    output attribute of each direct predecessor and every output
    attribute that binds the successors (parallel-run, not
    parallel-merge) is required by all successors of its node; any error
    names an attribute key and the two ends of an edge on which a
    required attribute is missing from the predecessor, an output is not
    required by the successor, or the two values differ; and the
    validator returns what each of the five plans of
    TestParallel_Execute expects. *)
Theorem validation_accepts_exactly_the_consistent_plans (p : PlanSpec) :
  (ValidateAttributes p = None <->
   required_are_matched p /\ binding_outputs_are_required p) /\
  (forall e, ValidateAttributes p = Some e -> describes p e) /\
  Forall (passes ValidateAttributes) testcases.
Proof.
  split; [apply ValidateAttributesWith_None|].
  split; [intros e; apply ValidateAttributesWith_Some|].
  repeat constructor; vm_compute; reflexivity.
Qed.

(** C4 as stated fails on the first plan of the test: nothing requires
    the parallel-merge output of its merge node, the test expects no
    validation error, and a validator that asked every output attribute
    to be required would report one. *)
Lemma validation_passes_an_unrequired_merge_output :
  wantValidationErr parallel_from = None /\
  ValidateAttributes (spec parallel_from) = None /\
  ~ outputs_are_required (spec parallel_from) /\
  Error <$> ValidateAttributes_as_specified (spec parallel_from)
    = Some (Error (MustBeRequired "parallel-merge" "merge" "filter")) /\
  ~ passes ValidateAttributes_as_specified parallel_from.
Proof.
  split; [reflexivity|]. split; [vm_compute; reflexivity|].
  split; [|split; [vm_compute; reflexivity | by vm_compute]].
  intros Hall.
  assert (is_Some (RequiredAttrs (createPhysicalNode "filter" []) !! ParallelMergeKey))
    as [a Ha]; [|by vm_compute in Ha].
  eapply (Hall (createPhysicalNode "merge"
                  [withRequiredAttr ParallelRunKey (ParallelRunAttribute 2);
                   withOutputAttr ParallelMergeKey (ParallelMergeAttribute 2)])).
  - unfold is_edge. apply elem_of_cons. right. apply elem_of_cons. by left.
  - vm_compute. reflexivity.
Qed.

End Validator.

(** ** Synthesis of a side effect *)

Section SynthesisTo.
Import Interpreter.
Context {Value Node : Type}.
Variables IN_CONS_SIDE_EFFECTS IN_LOAD_VALUE IN_APPEND_SIDE_EFFECT
          IN_PROGRAM_START : Byte.byte.

(** C10: [SynthesisTo] returns nil and leaves the interpreter with its
    code followed by four instructions: cons-side-effects, load-value
    with the side effect's value, append-side-effect with the side
    effect's node, program-start; the instructions already there keep
    their places, and nothing else of the interpreter changes. *)
Theorem SynthesisTo_appends_four_opcodes
    (itrp : @Interpreter Value Node) (sideEffect : @SideEffect Value Node) :
  let (itrp', err) :=
    SynthesisTo IN_CONS_SIDE_EFFECTS IN_LOAD_VALUE IN_APPEND_SIDE_EFFECT
                IN_PROGRAM_START itrp sideEffect in
  err = None /\
  Code itrp' = Code itrp ++
    [ {| In := IN_CONS_SIDE_EFFECTS; Args_ := ArgInt 0 |};
      {| In := IN_LOAD_VALUE;
         Args_ := ArgLoadValue {| lv_Value := se_Value sideEffect |} |};
      {| In := IN_APPEND_SIDE_EFFECT;
         Args_ := ArgAppendSideEffect {| ase_Node := se_Node sideEffect |} |};
      {| In := IN_PROGRAM_START; Args_ := ArgInt 0 |} ] /\
  length (Code itrp') = (length (Code itrp) + 4)%nat /\
  (forall i op, Code itrp !! i = Some op -> Code itrp' !! i = Some op) /\
  sideEffects itrp' = sideEffects itrp /\
  pkgName itrp' = pkgName itrp.
Proof.
  unfold SynthesisTo, appendCode, Code. simpl.
  split; [done|]. rewrite <- !app_assoc. simpl. split; [done|].
  split; [rewrite length_app; simpl; lia|]. split; [|done].
  intros i op Hl. by apply lookup_app_l_Some.
Qed.

End SynthesisTo.

(** ** The test executor *)

Section LeakCheck.
Import TestExecutor.

Lemma consume_events i r output :
  Forall (fun e => is_consumption e = true) (fst (consume i r output)) /\
  EvNext i ∈ fst (consume i r output) /\
  forall tbl, tbl ∈ Tables r -> EvStringify i tbl ∈ fst (consume i r output).
Proof.
  unfold consume. simpl. split; [|split].
  - constructor; [done|]. apply Forall_forall.
    intros e (tbl & -> & _)%list_elem_of_fmap. done.
  - apply elem_of_cons. by left.
  - intros tbl Hin. apply elem_of_cons. right. apply list_elem_of_fmap. eauto.
Qed.

Lemma consume_all_events i rs output :
  Forall (fun e => is_consumption e = true) (fst (consume_all i rs output)).
Proof.
  revert i output. induction rs as [|r rs IH]; intros i output;
    cbn [consume_all]; [done|].
  pose proof (consume_events i r output) as (Hc & _).
  destruct (consume i r output) as [evs output'] eqn:Hcons. simpl in Hc.
  destruct (streamErr r); [done|].
  specialize (IH (S i) output'). destruct (consume_all (S i) rs output') as [evs' res].
  simpl in *. by apply Forall_app.
Qed.

(** When the loop ends without an error, every result was taken from the
    iterator and every table of its stream was read. *)
Lemma consume_all_complete i rs output evs out :
  consume_all i rs output = (evs, inr out) ->
  forall k r, rs !! k = Some r ->
    streamErr r = None /\ EvNext (i + k) ∈ evs /\
    forall tbl, tbl ∈ Tables r -> EvStringify (i + k) tbl ∈ evs.
Proof.
  revert i output evs. induction rs as [|r0 rs IH]; intros i output evs;
    cbn [consume_all].
  - by intros _ k r Hl.
  - pose proof (consume_events i r0 output) as (_ & Hnext & Htbls).
    destruct (consume i r0 output) as [evs0 output'] eqn:Hcons. simpl in *.
    destruct (streamErr r0) eqn:Herr; [done|].
    destruct (consume_all (S i) rs output') as [evs' res] eqn:Hrest.
    intros [= <- ->] k r Hl. destruct k as [|k]; simpl in Hl.
    + injection Hl as <-. rewrite Nat.add_0_r. split; [done|].
      split; [apply elem_of_app; by left|].
      intros tbl Hin. apply elem_of_app. left. by apply Htbls.
    + destruct (IH _ _ _ Hrest k r Hl) as (He & Hn & Ht).
      replace (i + S k)%nat with (S i + k)%nat by lia. split; [done|].
      split; [apply elem_of_app; by right|].
      intros tbl Hin. apply elem_of_app. right. by apply Ht.
Qed.

Lemma consume_all_error i rs output evs err :
  consume_all i rs output = (evs, inl err) ->
  exists r, r ∈ rs /\ streamErr r = Some err.
Proof.
  revert i output evs. induction rs as [|r0 rs IH]; intros i output evs;
    cbn [consume_all]; [done|].
  destruct (consume i r0 output) as [evs0 output'].
  destruct (streamErr r0) as [e|] eqn:Herr.
  - intros [= <- <-]. exists r0. split; [apply elem_of_cons; by left | done].
  - destruct (consume_all (S i) rs output') as [evs' res] eqn:Hrest.
    intros [= <- ->]. destruct (IH _ _ _ Hrest) as (r & Hin & He).
    exists r. split; [apply elem_of_cons; by right | done].
Qed.

Lemma no_check_among_consumption evs :
  Forall (fun e => is_consumption e = true) evs -> EvAssertSize ∉ evs.
Proof.
  rewrite Forall_forall. intros Hall Hin. by specialize (Hall _ Hin).
Qed.

End LeakCheck.

(** ** Further properties of the partition merge *)

Section MergeMore.
Import Table Memory Execute Universe.
Context {D : Type} `{Dataset D}.
Variable bufferBytes : ColReader -> Z.

(** X3: a watermark (resp. processing time) from a registered parent is
    stored for that parent alone, and what the dataset receives is never
    ahead of the value just supplied nor of the value held for any
    parent; it is the value held for one of them whenever the supplied
    value is an int64. *)
Theorem merge_update_is_never_ahead_of_a_parent
    (t : PartitionMergeTransformation (Recorder D)) (id : N) (v : Z)
    (st : parallelParentState) :
  parentState t !! id = Some st ->
  (exists t' r fwd,
     UpdateWatermark t id v = Returned (t', r) /\
     calls (dataset t') = calls (dataset t) ++ [CallUpdateWatermark fwd] /\
     parentState t' = <[id := {| mark := v; processing := processing st;
                                 finished := finished st |}]> (parentState t) /\
     fwd <= v /\
     (forall id' st', parentState t' !! id' = Some st' -> fwd <= mark st') /\
     (v <= MaxInt64 ->
      exists id' st', parentState t' !! id' = Some st' /\ fwd = mark st')) /\
  (exists t' r fwd,
     UpdateProcessingTime t id v = Returned (t', r) /\
     calls (dataset t') = calls (dataset t) ++ [CallUpdateProcessingTime fwd] /\
     parentState t' = <[id := {| mark := mark st; processing := v;
                                 finished := finished st |}]> (parentState t) /\
     fwd <= v /\
     (forall id' st', parentState t' !! id' = Some st' -> fwd <= processing st') /\
     (v <= MaxInt64 ->
      exists id' st', parentState t' !! id' = Some st' /\ fwd = processing st')).
Proof.
  intros Hl. split.
  - rewrite (UpdateWatermark_registered _ _ _ _ Hl). simpl.
    set (ps := <[id := _]> (parentState t)).
    assert (ps !! id = Some {| mark := v; processing := processing st;
                               finished := finished st |}) as Hid
      by apply lookup_insert_eq.
    pose proof (min_over_le mark ps _ _ Hid) as Hle. simpl in Hle.
    do 3 eexists. split; [done|]. split; [done|]. split; [done|].
    split; [done|]. split; [intros id' st'; apply min_over_le|].
    intros Hv. destruct (min_over_attained mark ps) as [Hmax|Hatt]; [|done].
    eexists _, _. split; [exact Hid|]. simpl. lia.
  - rewrite (UpdateProcessingTime_registered _ _ _ _ Hl). simpl.
    set (ps := <[id := _]> (parentState t)).
    assert (ps !! id = Some {| mark := mark st; processing := v;
                               finished := finished st |}) as Hid
      by apply lookup_insert_eq.
    pose proof (min_over_le processing ps _ _ Hid) as Hle. simpl in Hle.
    do 3 eexists. split; [done|]. split; [done|]. split; [done|].
    split; [done|]. split; [intros id' st'; apply min_over_le|].
    intros Hv. destruct (min_over_attained processing ps) as [Hmax|Hatt]; [|done].
    eexists _, _. split; [exact Hid|]. simpl. lia.
Qed.

Lemma omap_all_some {A B} (f : A -> option B) (d : B) (l : list A) :
  (forall x, x ∈ l -> is_Some (f x)) ->
  omap f l = map (fun x => default d (f x)) l.
Proof.
  induction l as [|a l IH]; intros Hall; simpl; [done|].
  destruct (Hall a ltac:(apply elem_of_cons; by left)) as [b Hb].
  rewrite Hb. simpl. f_equal. apply IH. intros x Hx. apply Hall.
  apply elem_of_cons. by right.
Qed.

(** X4: once every registered parent has supplied a watermark, the
    watermark the dataset receives from an [UpdateWatermark] call is the
    minimum of the latest watermarks the parents supplied. *)
Theorem merge_forwards_minimum_once_all_have_spoken
    (d : D) (mem : Allocator) (parents : list N) (cs : list Call)
    (id : N) (v : Z) :
  registered parents (cs ++ [DoUpdateWatermark id v]) ->
  times_in_range (cs ++ [DoUpdateWatermark id v]) ->
  (forall p, p ∈ parents ->
     is_Some (latest p (watermarks (cs ++ [DoUpdateWatermark id v])))) ->
  exists t fwd,
    run bufferBytes (observed d mem parents) (cs ++ [DoUpdateWatermark id v])
      = Returned t /\
    last (calls (dataset t)) = Some (CallUpdateWatermark fwd) /\
    min_of_supplied parents (watermarks (cs ++ [DoUpdateWatermark id v]))
      = Some fwd.
Proof.
  intros Hreg Hr Hall.
  pose proof Hreg as Hreg'. apply Forall_app in Hreg' as [Hreg0 Hid].
  apply Forall_inv in Hid. simpl in Hid.
  destruct (run_tracks bufferBytes {| calls := []; inner := d |} mem parents cs Hreg0)
    as (t0 & Hrun & Htr).
  destruct (step_tracks bufferBytes _ _ (DoUpdateWatermark id v) _ Htr Hid)
    as (t & Hstep & Htr').
  destruct (step_calls _ _ _ _ Hstep) as (sent & Hcalls & ->).
  exists t, (min_over mark (parentState t)). split.
  - unfold observed. by rewrite run_snoc, Hrun.
  - split; [by rewrite Hcalls, last_snoc|].
    unfold min_of_supplied. rewrite (omap_all_some _ 0 _ Hall).
    apply (tracks_min_mark _ _ _ Htr' Hr).
    by apply (registered_nonempty _ (DoUpdateWatermark id v)).
Qed.

Lemma tracks_all_finished parents cs (t : PartitionMergeTransformation (Recorder D)) :
  tracks parents cs t ->
  all_finished (parentState t) = true <->
  forall id, id ∈ parents -> exists err, DoFinish id err ∈ cs.
Proof.
  intros [Hdom Hst]. rewrite all_finished_true. split.
  - intros Hall id Hin. destruct (proj2 (Hdom id) Hin) as [st Hl].
    destruct (Hst _ _ Hl) as (_ & _ & Hf). apply Hf. by eapply Hall.
  - intros Hall id st Hl. destruct (Hst _ _ Hl) as (_ & _ & Hf). apply Hf.
    apply Hall, Hdom. by eexists.
Qed.

(** X5: with at least one parent, the dataset has received a nil
    [Finish] exactly when every registered parent has called [Finish],
    with or without an error. *)
Theorem merge_nil_finish_iff_every_parent_finished
    (d : D) (mem : Allocator) (parents : list N) (cs : list Call) :
  parents <> [] -> registered parents cs ->
  exists t,
    run bufferBytes (observed d mem parents) cs = Returned t /\
    (CallFinish None ∈ calls (dataset t) <->
     forall id, id ∈ parents -> exists err, DoFinish id err ∈ cs).
Proof.
  intros Hne Hreg.
  destruct (run_invariant bufferBytes {| calls := []; inner := d |} mem parents
              (fun cs t =>
                 CallFinish None ∈ calls (dataset t) <->
                 forall id, id ∈ parents -> exists err, DoFinish id err ∈ cs))
    with (cs := cs) as (t & Hrun & _ & HP); [| |done|by exists t].
  - simpl. split; [by intros []%elem_of_nil|]. intros Hall.
    destruct parents as [|p ps]; [done|].
    destruct (Hall p ltac:(apply elem_of_cons; by left)) as [e []%elem_of_nil].
  - clear Hreg cs. intros cs c t t' Htr IH Hin Hstep Htr'.
    pose proof (tracks_all_finished _ _ _ Htr') as Hfin'.
    destruct (step_calls _ _ _ _ Hstep) as (sent & -> & Hsent).
    rewrite elem_of_app.
    assert (forall c', (match c' with DoFinish _ _ => False | _ => True end) ->
              (forall id, id ∈ parents -> exists err, DoFinish id err ∈ cs ++ [c']) <->
              (forall id, id ∈ parents -> exists err, DoFinish id err ∈ cs)) as Hsame.
    { intros c' Hc'. split; intros Hall id Hid; destruct (Hall id Hid) as [e He];
        exists e.
      - apply elem_of_app in He as [He|He%list_elem_of_singleton]; [done|].
        by subst c'.
      - apply elem_of_app. by left. }
    destruct c as [id tbl|id key|id m|id pt|id err].
    + rewrite Hsame by done. rewrite <- IH. destruct Hsent as [->|[out ->]].
      * split; [intros [?|[]%elem_of_nil]; done | by left].
      * split; [intros [?|?%list_elem_of_singleton]; done | by left].
    + rewrite Hsame by done. rewrite <- IH. subst sent.
      split; [intros [?|?%list_elem_of_singleton]; done | by left].
    + rewrite Hsame by done. rewrite <- IH. subst sent.
      split; [intros [?|?%list_elem_of_singleton]; done | by left].
    + rewrite Hsame by done. rewrite <- IH. subst sent.
      split; [intros [?|?%list_elem_of_singleton]; done | by left].
    + rewrite <- Hfin'. subst sent. destruct (all_finished (parentState t')) eqn:Hall.
      * split; [done|]. intros _. right. apply elem_of_app. right.
        by apply list_elem_of_singleton.
      * split; [|done]. rewrite app_nil_r. intros [Hold|Hnew].
        -- exfalso. pose proof (proj1 IH Hold) as Hold'.
           assert (false = true); [|done].
           apply Hfin'. intros id' Hid'. destruct (Hold' id' Hid') as [e He].
           exists e. apply elem_of_app. by left.
        -- destruct err; [|by apply elem_of_nil in Hnew].
           by apply list_elem_of_singleton in Hnew.
Qed.

End MergeMore.

Section MergeMoreExamples.
Import Table Memory Execute Universe.

(** X3: the first of two parents supplies 10. *)
Lemma merge_update_is_never_ahead_of_a_parent_witness :
  parentState (observed tt {| Used := 0; Quota := 0 |} [1%N; 2%N]) !! 1%N
    = Some zero_state /\
  exists t' r fwd,
    UpdateWatermark (observed tt {| Used := 0; Quota := 0 |} [1%N; 2%N]) 1%N 10
      = Returned (t', r) /\
    calls (dataset t') = [CallUpdateWatermark fwd] /\ fwd <= 10.
Proof.
  assert (Hl : parentState (observed tt {| Used := 0; Quota := 0 |} [1%N; 2%N])
                 !! 1%N = Some zero_state) by (vm_compute; reflexivity).
  split; [exact Hl|].
  destruct (merge_update_is_never_ahead_of_a_parent _ 1%N 10 zero_state Hl)
    as [(t' & r & fwd & Hrun & Hcalls & _ & Hle & _) _].
  exists t', r, fwd. split; [exact Hrun|]. split; [exact Hcalls|exact Hle].
Defined.

(** X4: both parents have spoken when the second call returns. *)
Lemma merge_forwards_minimum_once_all_have_spoken_witness :
  registered [1%N; 2%N] ([DoUpdateWatermark 1%N 10] ++ [DoUpdateWatermark 2%N 7]) /\
  times_in_range ([DoUpdateWatermark 1%N 10] ++ [DoUpdateWatermark 2%N 7]) /\
  (forall p, p ∈ [1%N; 2%N] ->
     is_Some (latest p (watermarks
                ([DoUpdateWatermark 1%N 10] ++ [DoUpdateWatermark 2%N 7])))) /\
  exists t fwd,
    run (fun _ => 0) (observed tt {| Used := 0; Quota := 0 |} [1%N; 2%N])
        ([DoUpdateWatermark 1%N 10] ++ [DoUpdateWatermark 2%N 7]) = Returned t /\
    last (calls (dataset t)) = Some (CallUpdateWatermark fwd) /\
    min_of_supplied [1%N; 2%N]
      (watermarks ([DoUpdateWatermark 1%N 10] ++ [DoUpdateWatermark 2%N 7]))
      = Some fwd.
Proof.
  assert (Hreg : registered [1%N; 2%N]
            ([DoUpdateWatermark 1%N 10] ++ [DoUpdateWatermark 2%N 7])).
  { repeat constructor. }
  assert (Hr : times_in_range
            ([DoUpdateWatermark 1%N 10] ++ [DoUpdateWatermark 2%N 7])).
  { repeat constructor; unfold MinInt64, MaxInt64; lia. }
  assert (Hall : forall p, p ∈ [1%N; 2%N] ->
            is_Some (latest p (watermarks
              ([DoUpdateWatermark 1%N 10] ++ [DoUpdateWatermark 2%N 7])))).
  { intros p [->|[->|[]%elem_of_nil]%elem_of_cons]%elem_of_cons; by eexists. }
  split; [exact Hreg|]. split; [exact Hr|]. split; [exact Hall|].
  exact (merge_forwards_minimum_once_all_have_spoken (fun _ => 0) tt
           {| Used := 0; Quota := 0 |} [1%N; 2%N] _ 2%N 7 Hreg Hr Hall).
Defined.

(** X5: one parent fails, the other finishes. *)
Lemma merge_nil_finish_iff_every_parent_finished_witness :
  [1%N; 2%N] <> [] /\
  registered [1%N; 2%N] [DoFinish 1%N (Some "boom"); DoFinish 2%N None] /\
  exists t,
    run (fun _ => 0) (observed tt {| Used := 0; Quota := 0 |} [1%N; 2%N])
        [DoFinish 1%N (Some "boom"); DoFinish 2%N None] = Returned t /\
    (CallFinish None ∈ calls (dataset t) <->
     forall id, id ∈ [1%N; 2%N] ->
       exists err, DoFinish id err ∈ [DoFinish 1%N (Some "boom"); DoFinish 2%N None]).
Proof.
  assert (Hne : [1%N; 2%N] <> []) by discriminate.
  assert (Hreg : registered [1%N; 2%N]
            [DoFinish 1%N (Some "boom"); DoFinish 2%N None]).
  { repeat constructor. }
  split; [exact Hne|]. split; [exact Hreg|].
  exact (merge_nil_finish_iff_every_parent_finished (fun _ => 0) tt
           {| Used := 0; Quota := 0 |} [1%N; 2%N] _ Hne Hreg).
Defined.

End MergeMoreExamples.

(** ** Creation of the transformation *)

Section Creation.
Import Table Memory Execute Universe UniverseCreate.
Context {D : Type}.
Variable NewPassthroughDataset : N -> D.

(** X6: creation fails with [invalid spec type] and the type's name for
    any spec that is not the partition-merge spec; for that spec it
    returns the fresh passthrough dataset of the id, and a
    transformation on that dataset and the administration's allocator
    that holds one zero state (no watermark, no processing time, not
    finished) for each parent of the administration, however often the
    id is listed, and none for any other id. *)
Theorem create_registers_the_parents_of_the_administration
    (id : N) (spec : ProcedureSpec) (a : Administration) :
  match spec with
  | PartitionMergeProcedureSpec =>
      exists t,
        createPartitionMergeTransformation NewPassthroughDataset id spec a
          = inr (t, NewPassthroughDataset id) /\
        dataset t = NewPassthroughDataset id /\
        alloc t = adm_Allocator a /\
        (forall pid, parentState t !! pid =
           if decide (pid ∈ adm_Parents a) then Some zero_state else None) /\
        size (parentState t) = length (remove_dups (adm_Parents a))
  | OtherProcedureSpec _ ty =>
      createPartitionMergeTransformation NewPassthroughDataset id spec a
        = inl ("invalid spec type " +:+ ty)
  end.
Proof.
  destruct spec as [|kind ty]; [|done]. eexists. split; [done|]. simpl.
  split; [done|]. split; [done|]. split.
  - intros pid. rewrite register_parents_lookup. case_decide; [done|].
    apply lookup_empty.
  - rewrite <- size_dom, register_parents_dom.
    assert (list_to_set (adm_Parents a)
            = list_to_set (C := gset N) (remove_dups (adm_Parents a))) as ->.
    { apply set_eq. intros x.
      by rewrite !elem_of_list_to_set, elem_of_remove_dups. }
    apply size_list_to_set, NoDup_remove_dups.
Qed.

End Creation.

(** ** Further properties of the test executor *)

Section RunMore.
Import TestExecutor TestOutput.

Lemma append_empty (s1 s2 : string) : s1 +:+ s2 = "" <-> s1 = "" /\ s2 = "".
Proof. destruct s1; simpl; [|split; [done | by intros [? _]]]. tauto. Qed.

Lemma length_positive (s : string) :
  (0 <? String.length s)%nat = false <-> s = "".
Proof.
  destruct s as [|a s]; simpl.
  - by split.
  - split; [|done]. intros Hlt. apply Nat.ltb_ge in Hlt. lia.
Qed.

Lemma fold_append_empty (l : list string) (out : string) :
  fold_left (fun o t => o +:+ t) l out = "" <->
  out = "" /\ forall t, t ∈ l -> t = "".
Proof.
  revert out. induction l as [|a l IH]; intros out; simpl.
  - split; [|by intros [? _]]. intros ->. split; [done|]. by intros t []%elem_of_nil.
  - rewrite IH, append_empty. split.
    + intros [[-> ->] Hall]. split; [done|].
      intros t [->|Hin]%elem_of_cons; [done | by apply Hall].
    + intros [-> Hall]. split.
      * split; [done|]. apply Hall. apply elem_of_cons. by left.
      * intros t Hin. apply Hall. apply elem_of_cons. by right.
Qed.

(** The loop over streams that all end well reads them all and gathers
    what they print. *)
Lemma consume_all_ok i rs output :
  (forall r, r ∈ rs -> streamErr r = None) ->
  exists evs,
    consume_all i rs output =
    (evs, inr (fold_left (fun o t => o +:+ t) (flat_map Tables rs) output)).
Proof.
  revert i output. induction rs as [|r rs IH]; intros i output Hall;
    cbn [consume_all]; [by eexists|].
  unfold consume at 1. rewrite (Hall r) by (apply elem_of_cons; by left).
  destruct (IH (S i) (fold_left (fun o t => o +:+ t) (Tables r) output))
    as [evs Hevs]; [intros r' Hin; apply Hall, elem_of_cons; by right|].
  rewrite Hevs. eexists. simpl. by rewrite fold_left_app.
Qed.

(** The loop stops at the first stream that ends with an error, having
    read nothing past it. *)
Lemma consume_all_stops i pre r post output err :
  (forall r', r' ∈ pre -> streamErr r' = None) -> streamErr r = Some err ->
  exists evs,
    consume_all i (pre ++ r :: post) output = (evs, inl err) /\
    forall k e, e ∈ evs -> touches k e -> (i <= k <= i + length pre)%nat.
Proof.
  revert i output. induction pre as [|p pre IH]; intros i output Hpre Herr;
    cbn [consume_all app].
  - unfold consume. rewrite Herr. eexists. split; [done|].
    intros k e [->|(tbl & -> & _)%list_elem_of_fmap]%elem_of_cons; simpl;
      intros <-; lia.
  - unfold consume at 1. rewrite (Hpre p) by (apply elem_of_cons; by left).
    destruct (IH (S i) (fold_left (fun o t => o +:+ t) (Tables p) output))
      as (evs & Hevs & Hbound);
      [intros r' Hin; apply Hpre, elem_of_cons; by right | done |].
    rewrite Hevs. eexists. split; [done|].
    intros k e [Hin|Hin]%elem_of_app Hk.
    + apply elem_of_cons in Hin as [->|(tbl & -> & _)%list_elem_of_fmap];
        simpl in Hk; subst k; simpl; lia.
    + specialize (Hbound k e Hin Hk). simpl. lia.
Qed.

(** X7: [Run] returns nil exactly when marshalling, compilation and
    start succeed, every result stream ends without an error, the
    iterator reports none, every table prints as the empty string, and
    the allocator check files no complaint. *)
Theorem Run_passes_iff_nothing_goes_wrong (w : World) :
  snd (Run w) = None <->
  started w /\
  (forall r, r ∈ results w -> streamErr r = None) /\
  resultsErr w = None /\
  (forall r tbl, r ∈ results w -> tbl ∈ Tables r -> tbl = "") /\
  leakReports w = 0%nat.
Proof.
  unfold Run, started.
  destruct (marshalErr w) as [e1|]; [simpl; split; [done | by intros [[? _] _]]|].
  destruct (compileErr w) as [e2|];
    [simpl; split; [done | by intros [(_ & ? & _) _]]|].
  destruct (startErr w) as [e3|];
    [simpl; split; [done | by intros [(_ & _ & ?) _]]|].
  destruct (consume_all 0 (results w) "") as [evs [e4|output]] eqn:Hloop.
  - simpl. split; [done|]. intros (_ & Hall & _).
    destruct (consume_all_ok 0 (results w) "" Hall) as [evs' Hok]. congruence.
  - assert (forall r, r ∈ results w -> streamErr r = None) as Hall.
    { intros r [k Hk]%list_elem_of_lookup.
      by destruct (consume_all_complete _ _ _ _ _ Hloop k r Hk). }
    destruct (consume_all_ok 0 (results w) "" Hall) as [evs' Hok].
    assert (output = fold_left (fun o t => o +:+ t) (flat_map Tables (results w)) "")
      as -> by congruence.
    simpl.
    assert ((forall r tbl, r ∈ results w -> tbl ∈ Tables r -> tbl = "") <->
            fold_left (fun o t => o +:+ t) (flat_map Tables (results w)) "" = "")
      as Hout.
    { rewrite fold_append_empty. split.
      - intros Hempty. split; [done|].
        intros t (r & Hr & Ht)%list_elem_of_In%in_flat_map.
        apply (Hempty r); by apply list_elem_of_In.
      - intros [_ Hempty] r tbl Hr Ht. apply Hempty, list_elem_of_In, in_flat_map.
        exists r. split; by apply list_elem_of_In. }
    rewrite Hout, <- length_positive.
    destruct (leakReports w) as [|n]; simpl.
    + destruct (resultsErr w) as [e5|]; [split; [done | by intros (_ & _ & ? & _)]|].
      destruct (0 <? String.length _)%nat; [split; [done | by intros (_ & _ & _ & ? & _)]|].
      done.
    + split; [done | by intros (_ & _ & _ & _ & ?)].
Qed.

Lemma occurrences_app e tr tr' :
  occurrences e (tr ++ tr') = (occurrences e tr + occurrences e tr')%nat.
Proof. unfold occurrences. by rewrite filter_app, length_app. Qed.

Lemma occurrences_consumption e evs :
  is_consumption e = false ->
  Forall (fun e' => is_consumption e' = true) evs -> occurrences e evs = 0%nat.
Proof.
  intros He Hall. unfold occurrences. induction Hall as [|e' evs He' _ IH]; [done|].
  rewrite filter_cons_False; [done|]. intros ->. congruence.
Qed.

(** X8: [query.Done] runs exactly once when the program was started and
    never otherwise, the tracing span is finished exactly once when
    marshalling succeeded and never otherwise, and these deferred calls
    are the last things [Run] does, [Done] before the span. *)
Theorem Run_runs_its_deferred_calls_once (w : World) :
  let tr := fst (Run w) in
  occurrences EvDone tr =
    match marshalErr w, compileErr w, startErr w with
    | None, None, None => 1%nat
    | _, _, _ => 0%nat
    end /\
  occurrences EvSpanFinish tr =
    match marshalErr w with None => 1%nat | Some _ => 0%nat end /\
  (marshalErr w = None -> last tr = Some EvSpanFinish) /\
  (started w -> exists pre, tr = pre ++ [EvDone; EvSpanFinish]).
Proof.
  unfold Run, started.
  destruct (marshalErr w) as [e1|];
    [simpl; repeat split; [done | by intros [? _]]|].
  destruct (compileErr w) as [e2|];
    [simpl; repeat split; by intros (_ & ? & _)|].
  destruct (startErr w) as [e3|];
    [simpl; repeat split; by intros (_ & _ & ?)|].
  pose proof (consume_all_events 0 (results w) "") as Hevs.
  destruct (consume_all 0 (results w) "") as [evs [e4|output]]; simpl in *.
  - split; [|split; [|split]].
    + change (occurrences EvDone ([EvMarshal; EvCompile; EvStart] ++ evs ++
                                  [EvDone; EvSpanFinish]) = 1%nat).
      rewrite !occurrences_app, (occurrences_consumption EvDone evs) by done.
      reflexivity.
    + change (occurrences EvSpanFinish ([EvMarshal; EvCompile; EvStart] ++ evs ++
                                        [EvDone; EvSpanFinish]) = 1%nat).
      rewrite !occurrences_app, (occurrences_consumption EvSpanFinish evs) by done.
      reflexivity.
    + intros _. change (last ([EvMarshal; EvCompile; EvStart] ++ evs ++
                              [EvDone] ++ [EvSpanFinish]) = Some EvSpanFinish).
      by rewrite !app_assoc, last_snoc.
    + intros _. exists ([EvMarshal; EvCompile; EvStart] ++ evs).
      by rewrite <- app_assoc.
  - split; [|split; [|split]].
    + change (occurrences EvDone ([EvMarshal; EvCompile; EvStart] ++ evs ++
                [EvRelease; EvAssertSize; EvDone; EvSpanFinish]) = 1%nat).
      rewrite !occurrences_app, (occurrences_consumption EvDone evs) by done.
      reflexivity.
    + change (occurrences EvSpanFinish ([EvMarshal; EvCompile; EvStart] ++ evs ++
                [EvRelease; EvAssertSize; EvDone; EvSpanFinish]) = 1%nat).
      rewrite !occurrences_app, (occurrences_consumption EvSpanFinish evs) by done.
      reflexivity.
    + intros _. change (last ([EvMarshal; EvCompile; EvStart] ++ evs ++
                  [EvRelease; EvAssertSize; EvDone] ++ [EvSpanFinish])
                        = Some EvSpanFinish).
      by rewrite !app_assoc, last_snoc.
    + intros _. exists ([EvMarshal; EvCompile; EvStart] ++ evs ++
                        [EvRelease; EvAssertSize]).
      by rewrite <- !app_assoc.
Qed.

(** X9: when the program was started, every result stream ends without
    an error and the allocator check files no complaint, [Run] returns
    the error of the result iterator when it has one, whatever was
    printed; otherwise nil when nothing was printed, and otherwise the
    complaint about output, which carries all the tables printed, in
    order. *)
Theorem Run_reports_the_iterator_error_before_the_output (w : World) :
  started w ->
  (forall r, r ∈ results w -> streamErr r = None) ->
  leakReports w = 0%nat ->
  snd (Run w) =
    match resultsErr w with
    | Some err => Some err
    | None =>
        if decide (printed (results w) = "") then None
        else Some (output_error (printed (results w)))
    end.
Proof.
  intros (H1 & H2 & H3) Hall Hleak. unfold Run. rewrite H1, H2, H3, Hleak.
  destruct (consume_all_ok 0 (results w) "" Hall) as [evs ->]. simpl.
  fold (printed (results w)). destruct (resultsErr w) as [e|]; [done|].
  case_decide as Hp.
  - by rewrite (proj2 (length_positive _) Hp).
  - destruct (0 <? String.length (printed (results w)))%nat eqn:Hlen; [done|].
    by apply length_positive in Hlen.
Qed.

(** X10: when the program was started and a result stream ends with an
    error, all streams before it ending well, [Run] returns that error
    as it is; it reads no later result, does not release the iterator
    and does not ask the allocator for leaks, whatever the allocator
    would say. *)
Theorem Run_stops_at_the_first_failing_stream
    (w : World) (pre post : list Result) (r : Result) (err : Err) :
  started w ->
  results w = pre ++ r :: post ->
  (forall r', r' ∈ pre -> streamErr r' = None) ->
  streamErr r = Some err ->
  let (tr, res) := Run w in
  res = Some err /\
  (EvRelease ∉ tr) /\ (EvAssertSize ∉ tr) /\
  forall k e, e ∈ tr -> touches k e -> (k <= length pre)%nat.
Proof.
  intros (H1 & H2 & H3) Hres Hpre Herr. unfold Run. rewrite H1, H2, H3, Hres.
  pose proof (consume_all_events 0 (pre ++ r :: post) "") as Hevs.
  destruct (consume_all_stops 0 pre r post "" err Hpre Herr) as (evs & Heq & Hbound).
  rewrite Heq in Hevs |- *. simpl in Hevs. rewrite Forall_forall in Hevs.
  assert (forall e, is_consumption e = false -> e <> EvMarshal -> e <> EvCompile ->
            e <> EvStart -> e <> EvDone -> e <> EvSpanFinish ->
            e ∉ [EvMarshal; EvCompile; EvStart] ++ evs ++ [EvDone; EvSpanFinish])
    as Hnot.
  { intros e He ? ? ? ? ? Hin.
    repeat (apply elem_of_cons in Hin as [Hin|Hin]; [done|]).
    apply elem_of_app in Hin as [Hin|Hin].
    - pose proof (Hevs _ Hin) as Hc. simpl in Hc. congruence.
    - repeat (apply elem_of_cons in Hin as [Hin|Hin]; [done|]).
      by apply elem_of_nil in Hin. }
  split; [done|]. split; [by apply Hnot|]. split; [by apply Hnot|].
  intros k e Hin Hk.
  repeat (apply elem_of_cons in Hin as [Hin|Hin]; [by subst e|]).
  apply elem_of_app in Hin as [Hin|Hin].
  - by destruct (Hbound k e Hin Hk).
  - repeat (apply elem_of_cons in Hin as [Hin|Hin]; [by subst e|]).
    by apply elem_of_nil in Hin.
Qed.

End RunMore.

(** ** The flags of the tests *)

Section Flags.
Import ExecuteTest.

Lemma lookup_constant_map (l : list string) (v : Any) (key : string) :
  (list_to_map (map (fun k => (k, v)) l) : gmap string Any) !! key =
  if decide (key ∈ l) then Some v else None.
Proof.
  induction l as [|k l IH].
  - change (list_to_map (map (fun k => (k, v)) [])) with (∅ : gmap string Any).
    rewrite lookup_empty. by rewrite decide_False by apply not_elem_of_nil.
  - change (list_to_map (map (fun k => (k, v)) (k :: l)))
      with (<[k := v]> (list_to_map (map (fun k => (k, v)) l) : gmap string Any)).
    destruct (decide (k = key)) as [->|Hne].
    + rewrite lookup_insert_eq. rewrite decide_True; [done|].
      apply elem_of_cons. by left.
    + rewrite lookup_insert_ne by done. rewrite IH.
      destruct (decide (key ∈ l)) as [Hin|Hnin].
      * rewrite decide_True; [done|]. apply elem_of_cons. by right.
      * rewrite decide_False; [done|]. intros [?|?]%elem_of_cons; congruence.
Qed.

(** X11: with the flags of the tests, [FlagValue] is [true] for the
    thirteen flags the table lists, whatever the flag's own default, and
    the flag's default for every other flag, among them the three the
    table has commented out. *)
Theorem FlagValue_of_the_test_flags (flag : Flag) :
  FlagValue testFlags flag =
    (if decide (Key flag ∈ enabled) then ABool true else Default flag) /\
  (Key flag ∈ ["aggregateTransformationTransport"; "groupTransformationGroup";
               "optimizeUnionTransformation"] ->
   FlagValue testFlags flag = Default flag).
Proof.
  assert (FlagValue testFlags flag =
          if decide (Key flag ∈ enabled) then ABool true else Default flag) as Hv.
  { unfold FlagValue, testFlags. rewrite lookup_constant_map. by case_decide. }
  split; [done|]. intros Hin. rewrite Hv.
  rewrite decide_False; [done|]. intros Hen.
  assert (forall key : string,
            bool_decide (key ∈ enabled) = false -> key = Key flag -> False)
    as Hoff.
  { intros key Hb ->. by apply bool_decide_eq_false in Hb. }
  apply elem_of_cons in Hin as [Hin|Hin]; [by eapply Hoff; [|done]; vm_compute|].
  apply elem_of_cons in Hin as [Hin|Hin]; [by eapply Hoff; [|done]; vm_compute|].
  apply elem_of_cons in Hin as [Hin|Hin]; [by eapply Hoff; [|done]; vm_compute|].
  by apply elem_of_nil in Hin.
Qed.

End Flags.

(** ** Synthesis of a program *)

Section SynthesisWalk.
Import Interpreter Semantic Synthesis.
Context {Value Expression PackageClause Payload : Type}.
Variables IN_CONS_SIDE_EFFECTS IN_LOAD_VALUE IN_APPEND_SIDE_EFFECT
          IN_PROGRAM_START : Byte.byte.
Variable InvalidValue : Value.
Variable PackageMain : string.
Variable ImportPackageObject : string -> error + (string * Value).
Variable doPackageClause :
  option PackageClause ->
  @Interpreter Value (@Node Expression PackageClause Payload) ->
  @Interpreter Value (@Node Expression PackageClause Payload) * option error.
Variables doOptionStatement doTestStatement doVariableAssignment
          doMemberAssignment :
  Payload -> @Machine Value Expression PackageClause Payload ->
  @Machine Value Expression PackageClause Payload * option error.
Variable doExpression :
  Expression -> @Machine Value Expression PackageClause Payload ->
  @Machine Value Expression PackageClause Payload * (error + Value).

#[local] Abbreviation synStatement' :=
  (synStatement IN_LOAD_VALUE IN_APPEND_SIDE_EFFECT InvalidValue PackageMain
    doOptionStatement doTestStatement doVariableAssignment doMemberAssignment
    doExpression).
#[local] Abbreviation synFile' :=
  (synFile IN_LOAD_VALUE IN_APPEND_SIDE_EFFECT InvalidValue PackageMain
    ImportPackageObject doPackageClause
    doOptionStatement doTestStatement doVariableAssignment doMemberAssignment
    doExpression).
#[local] Abbreviation Synthesis' :=
  (Synthesis IN_CONS_SIDE_EFFECTS IN_LOAD_VALUE IN_APPEND_SIDE_EFFECT
    IN_PROGRAM_START InvalidValue PackageMain
    ImportPackageObject doPackageClause
    doOptionStatement doTestStatement doVariableAssignment doMemberAssignment
    doExpression).
#[local] Abbreviation emitted :=
  (flat_map (side_effect_code (PackageClause := PackageClause)
               IN_LOAD_VALUE IN_APPEND_SIDE_EFFECT)).

Hypothesis Hkeep :
  evaluators_keep_code doPackageClause doOptionStatement doTestStatement
    doVariableAssignment doMemberAssignment doExpression.

Lemma synStatement_code stmt m :
  exists svs : list (@Statement Expression Payload * Value),
    code (itrp (fst (synStatement' stmt m))) = code (itrp m) ++ emitted svs /\
    sublist (map fst svs) (filter (fun s => is_expression_statement s = true) [stmt]).
Proof.
  destruct Hkeep as (_ & Ho & Ht & Hv & Hm & He).
  unfold synStatement.
  set (m0 := with_scope m _).
  assert (code (itrp m0) = code (itrp m)) as Hm0 by done.
  destruct stmt as [s|s|s|s|s|e|arg|ty].
  - exists []. rewrite Ho, Hm0, app_nil_r. split; [done|]. apply sublist_nil_l.
  - exists []. rewrite app_nil_r. split; [done|]. apply sublist_nil_l.
  - exists []. rewrite Ht, Hm0, app_nil_r. split; [done|]. apply sublist_nil_l.
  - exists []. rewrite Hv, Hm0, app_nil_r. split; [done|]. apply sublist_nil_l.
  - exists []. rewrite Hm, Hm0, app_nil_r. split; [done|]. apply sublist_nil_l.
  - specialize (He e m0). destruct (doExpression e m0) as [m1 [err|v]]; simpl in *.
    + exists []. rewrite He, app_nil_r. split; [done|]. apply sublist_nil_l.
    + case_decide.
      * exists [(ExpressionStatement e, v)]. simpl. rewrite He, <- app_assoc.
        split; [done|]. rewrite filter_cons_True by done. done.
      * exists []. rewrite He, app_nil_r. split; [done|]. apply sublist_nil_l.
  - specialize (He arg m0). destruct (doExpression arg m0) as [m1 [err|v]];
      simpl in *; exists []; rewrite He, app_nil_r; (split; [done|]);
      apply sublist_nil_l.
  - exists []. rewrite app_nil_r. split; [done|]. apply sublist_nil_l.
Qed.

Lemma each_code {A}
    (f : A -> @Machine Value Expression PackageClause Payload ->
         @Machine Value Expression PackageClause Payload * option error)
    (g : A -> list (@Statement Expression Payload)) :
  (forall x m, exists svs : list (@Statement Expression Payload * Value),
     code (itrp (fst (f x m))) = code (itrp m) ++ emitted svs /\
     sublist (map fst svs) (g x)) ->
  forall xs m, exists svs : list (@Statement Expression Payload * Value),
    code (itrp (fst (each f xs m))) = code (itrp m) ++ emitted svs /\
    sublist (map fst svs) (flat_map g xs).
Proof.
  intros Hf xs. induction xs as [|x xs IH]; intros m; simpl.
  - exists []. rewrite app_nil_r. split; [done|]. apply sublist_nil_l.
  - destruct (Hf x m) as (svs1 & Hc1 & Hs1).
    destruct (f x m) as [m1 [err|]]; simpl in *.
    + exists svs1. split; [done|]. by apply sublist_inserts_r.
    + destruct (IH m1) as (svs2 & Hc2 & Hs2). exists (svs1 ++ svs2).
      rewrite flat_map_app, app_assoc, <- Hc1, <- Hc2.
      split; [done|]. rewrite map_app. by apply sublist_app.
Qed.

Lemma flat_map_constant_nil {A B} (l : list A) :
  flat_map (fun _ => @nil B) l = [].
Proof. induction l as [|a l IH]; [done | exact IH]. Qed.

Lemma flat_map_filter_singleton {A} (P : A -> Prop) `{forall x, Decision (P x)}
    (l : list A) :
  flat_map (fun x => filter P [x]) l = filter P l.
Proof.
  induction l as [|a l IH]; [done|]. simpl flat_map. rewrite IH.
  destruct (decide (P a)).
  - by rewrite !filter_cons_True by done.
  - by rewrite !filter_cons_False by done.
Qed.

Lemma synFile_code file m :
  exists svs : list (@Statement Expression Payload * Value),
    code (itrp (fst (synFile' file m))) = code (itrp m) ++ emitted svs /\
    sublist (map fst svs) (expression_statements (FileNode file)).
Proof.
  unfold synFile. pose proof Hkeep as (Hp & _).
  specialize (Hp (Package_ file) (itrp m)).
  destruct (doPackageClause (Package_ file) (itrp m)) as [i [err|]]; simpl in *.
  { exists []. rewrite Hp, app_nil_r. split; [done|]. apply sublist_nil_l. }
  destruct (each_code (synImport ImportPackageObject) (fun _ => [])) with
    (xs := Imports file) (m := with_itrp m i) as (svs0 & Hc0 & Hs0).
  { intros dec m'. exists []. unfold synImport.
    destruct (ImportPackageObject (Path dec)) as [e|[n v]]; simpl;
      rewrite app_nil_r; (split; [done|]); apply sublist_nil_l. }
  assert (svs0 = []) as ->.
  { rewrite flat_map_constant_nil in Hs0. apply sublist_nil_r in Hs0.
    by destruct svs0. }
  simpl in Hc0. rewrite app_nil_r, Hp in Hc0.
  destruct (each (synImport ImportPackageObject) (Imports file) (with_itrp m i))
    as [m1 [err|]]; simpl in *.
  { exists []. rewrite Hc0, app_nil_r. split; [done|]. apply sublist_nil_l. }
  destruct (each_code synStatement' _ synStatement_code (Body file) m1)
    as (svs & Hc & Hs).
  exists svs. rewrite flat_map_filter_singleton in Hs. by rewrite Hc, Hc0.
Qed.

(** X12: provided the evaluating methods of the interpreter (which are
    outside the files) leave the emitted code alone, [Synthesis] leaves
    the interpreter with the code it had, then cons-side-effects, then
    one load-value and append-side-effect pair for some of the
    expression statements of the root, in source order, and then
    program-start when it returns nil; when it returns an error it has
    not emitted program-start. *)
Theorem Synthesis_brackets_the_side_effects
    (node : @Node Expression PackageClause Payload)
    (m : @Machine Value Expression PackageClause Payload) :
  let (m', r) := Synthesis' node m in
  exists svs : list (@Statement Expression Payload * Value),
    code (itrp m') =
      code (itrp m) ++
      [ {| In := IN_CONS_SIDE_EFFECTS; Args_ := ArgInt 0 |} ] ++
      emitted svs ++
      match r with
      | None => [ {| In := IN_PROGRAM_START; Args_ := ArgInt 0 |} ]
      | Some _ => []
      end /\
    sublist (map fst svs) (expression_statements node).
Proof.
  unfold Synthesis.
  set (m0 := with_itrp m _).
  assert (code (itrp m0) =
          code (itrp m) ++ [ {| In := IN_CONS_SIDE_EFFECTS; Args_ := ArgInt 0 |} ])
    as Hm0 by done.
  clearbody m0.
  assert (exists svs : list (@Statement Expression Payload * Value),
            code (itrp (fst (synRoot IN_LOAD_VALUE IN_APPEND_SIDE_EFFECT InvalidValue
                               PackageMain ImportPackageObject doPackageClause
                               doOptionStatement doTestStatement
                               doVariableAssignment doMemberAssignment
                               doExpression node m0)))
              = code (itrp m0) ++ emitted svs /\
            sublist (map fst svs) (expression_statements node))
    as (svs & Hc & Hs).
  { destruct node as [pkg|file|stmt|ty]; simpl.
    - apply (each_code synFile' _ synFile_code).
    - apply synFile_code.
    - exists []. by rewrite app_nil_r.
    - exists []. by rewrite app_nil_r. }
  rewrite Hm0 in Hc.
  destruct (synRoot _ _ _ _ _ _ _ _ _ _ _ node m0) as [m1 [err|]]; simpl in Hc |- *;
    exists svs; rewrite Hc, <- ?app_assoc; simpl; by rewrite ?app_nil_r.
Qed.

End SynthesisWalk.

Section SynthesisExamples.
Import Interpreter Semantic Synthesis SynthesisToCode Samples.

(** X12: a file of the main package with two expression statements. *)
Lemma Synthesis_brackets_the_side_effects_witness :
  evaluators_keep_code literal_doPackageClause literal_skip literal_skip
    literal_skip literal_skip literal_doExpression /\
  let (m', r) :=
    Synthesis Byte.x01 Byte.x02 Byte.x03 Byte.x04 0 "main" no_importer
      literal_doPackageClause literal_skip literal_skip literal_skip literal_skip
      literal_doExpression (FileNode literal_file) empty_machine in
  exists svs : list (Statement * Z),
    code (itrp m') =
      code (itrp empty_machine) ++
      [ {| In := Byte.x01; Args_ := ArgInt 0 |} ] ++
      flat_map (side_effect_code Byte.x02 Byte.x03) svs ++
      match r with
      | None => [ {| In := Byte.x04; Args_ := ArgInt 0 |} ]
      | Some _ => []
      end /\
    sublist (map fst svs) (expression_statements (FileNode literal_file)).
Proof.
  assert (Hk : evaluators_keep_code literal_doPackageClause literal_skip
                 literal_skip literal_skip literal_skip literal_doExpression).
  { repeat split. }
  split; [exact Hk|].
  exact (Synthesis_brackets_the_side_effects Byte.x01 Byte.x02 Byte.x03 Byte.x04
           0 "main" no_importer literal_doPackageClause literal_skip literal_skip
           literal_skip literal_skip literal_doExpression Hk
           (FileNode literal_file) empty_machine).
Defined.

End SynthesisExamples.

Section SynthesisToMany.
Import Interpreter SynthesisToCode.
Context {Value Node : Type}.
Variables IN_CONS_SIDE_EFFECTS IN_LOAD_VALUE IN_APPEND_SIDE_EFFECT
          IN_PROGRAM_START : Byte.byte.

(** X13: [SynthesisTo] for a list of side effects, one call after the
    other, leaves the code there was followed by the four instructions
    of each side effect in the order of the list, so four more
    instructions per side effect; the recorded side effects and the
    package name stay as they were. *)
Theorem SynthesisTo_each_appends_four_per_side_effect
    (itrp : @Interpreter Value Node) (ses : list (@SideEffect Value Node)) :
  let itrp' := SynthesisToEach IN_CONS_SIDE_EFFECTS IN_LOAD_VALUE
                 IN_APPEND_SIDE_EFFECT IN_PROGRAM_START itrp ses in
  Code itrp' = Code itrp ++
    flat_map (four_opcodes IN_CONS_SIDE_EFFECTS IN_LOAD_VALUE
                IN_APPEND_SIDE_EFFECT IN_PROGRAM_START) ses /\
  length (Code itrp') = (length (Code itrp) + 4 * length ses)%nat /\
  sideEffects itrp' = sideEffects itrp /\
  pkgName itrp' = pkgName itrp.
Proof.
  unfold SynthesisToEach, Code. revert itrp.
  induction ses as [|se ses IH]; intros itrp; cbn [fold_left flat_map length].
  - rewrite app_nil_r. repeat split. lia.
  - destruct (IH (fst (SynthesisTo IN_CONS_SIDE_EFFECTS IN_LOAD_VALUE
                         IN_APPEND_SIDE_EFFECT IN_PROGRAM_START itrp se)))
      as (Hc & Hl & Hs & Hp).
    split; [|split; [|split]].
    + rewrite Hc. unfold SynthesisTo, appendCode, four_opcodes. simpl.
      by rewrite <- !app_assoc.
    + rewrite Hl. unfold SynthesisTo, appendCode. simpl.
      rewrite !length_app. simpl. lia.
    + by rewrite Hs.
    + by rewrite Hp.
Qed.

End SynthesisToMany.

Section RunExamples.
Import TestExecutor TestOutput Samples.

(** X9: one table printed, and an iterator that reports an error. *)
Lemma Run_reports_the_iterator_error_before_the_output_witness :
  started printing_world /\
  (forall r, r ∈ results printing_world -> streamErr r = None) /\
  leakReports printing_world = 0%nat /\
  snd (Run printing_world) = Some (Foreign "iterator failed").
Proof.
  assert (Hs : started printing_world) by (repeat split).
  assert (Hall : forall r, r ∈ results printing_world -> streamErr r = None).
  { intros r [->|[]%elem_of_nil]%elem_of_cons. reflexivity. }
  split; [exact Hs|]. split; [exact Hall|]. split; [reflexivity|].
  exact (Run_reports_the_iterator_error_before_the_output printing_world Hs Hall
           eq_refl).
Defined.

(** X10: the second of three streams fails. *)
Lemma Run_stops_at_the_first_failing_stream_witness :
  started failing_world /\
  results failing_world =
    [ {| Tables := ["diff"]; streamErr := None |} ] ++
    {| Tables := []; streamErr := Some (Foreign "stream failed") |} ::
    [ {| Tables := ["never read"]; streamErr := None |} ] /\
  let (tr, res) := Run failing_world in
  res = Some (Foreign "stream failed") /\
  (EvRelease ∉ tr) /\ (EvAssertSize ∉ tr) /\
  forall k e, e ∈ tr -> touches k e -> (k <= 1)%nat.
Proof.
  assert (Hs : started failing_world) by (repeat split).
  assert (Hpre : forall r', r' ∈ [ {| Tables := ["diff"]; streamErr := None |} ] ->
                   streamErr r' = None).
  { intros r [->|[]%elem_of_nil]%elem_of_cons. reflexivity. }
  split; [exact Hs|]. split; [reflexivity|].
  exact (Run_stops_at_the_first_failing_stream failing_world
           [ {| Tables := ["diff"]; streamErr := None |} ]
           [ {| Tables := ["never read"]; streamErr := None |} ]
           {| Tables := []; streamErr := Some (Foreign "stream failed") |}
           (Foreign "stream failed") Hs eq_refl Hpre eq_refl).
Defined.

End RunExamples.

(** ** A single parent *)

Section SingleParent.
Import Table Memory Execute Universe.
Context {D : Type} `{Dataset D}.

Lemma min_over_single (f : parallelParentState -> Z)
    (m : gmap N parallelParentState) id st :
  m !! id = Some st -> (forall id', id' <> id -> m !! id' = None) ->
  f st <= MaxInt64 -> min_over f m = f st.
Proof.
  intros Hl Honly Hle. apply Z.le_antisymm; [by eapply min_over_le|].
  apply min_over_greatest; [done|]. intros id' st' Hl'.
  destruct (decide (id' = id)) as [->|Hne]; [|by rewrite Honly in Hl'].
  assert (st' = st) as -> by congruence. lia.
Qed.

(** X14: a transformation with a single parent hands every watermark
    and every processing time of that parent to its dataset as it is. *)
Theorem merge_with_one_parent_forwards_unchanged
    (t : PartitionMergeTransformation (Recorder D)) (id : N) (v : Z)
    (st : parallelParentState) :
  parentState t !! id = Some st ->
  (forall id', id' <> id -> parentState t !! id' = None) ->
  v <= MaxInt64 ->
  (exists t' r,
     UpdateWatermark t id v = Returned (t', r) /\
     calls (dataset t') = calls (dataset t) ++ [CallUpdateWatermark v]) /\
  (exists t' r,
     UpdateProcessingTime t id v = Returned (t', r) /\
     calls (dataset t') = calls (dataset t) ++ [CallUpdateProcessingTime v]).
Proof.
  intros Hl Honly Hv.
  assert (forall (f : parallelParentState -> Z) st',
            f st' = v -> min_over f (<[id := st']> (parentState t)) = v) as Hmin.
  { intros f st' Hf. rewrite <- Hf.
    apply (min_over_single f _ id st'); [apply lookup_insert_eq | | lia].
    intros id' Hne. rewrite lookup_insert_ne by done. by apply Honly. }
  split.
  - rewrite (UpdateWatermark_registered _ _ _ _ Hl). simpl.
    rewrite Hmin by done. by do 2 eexists.
  - rewrite (UpdateProcessingTime_registered _ _ _ _ Hl). simpl.
    rewrite Hmin by done. by do 2 eexists.
Qed.

End SingleParent.

Section SingleParentExamples.
Import Table Memory Execute Universe.

(** X14: the only parent, listed twice, supplies 10. *)
Lemma merge_with_one_parent_forwards_unchanged_witness :
  parentState (observed tt {| Used := 0; Quota := 0 |} [1%N; 1%N]) !! 1%N
    = Some zero_state /\
  (forall id', id' <> 1%N ->
     parentState (observed tt {| Used := 0; Quota := 0 |} [1%N; 1%N]) !! id' = None) /\
  10 <= MaxInt64 /\
  exists t' r,
    UpdateWatermark (observed tt {| Used := 0; Quota := 0 |} [1%N; 1%N]) 1%N 10
      = Returned (t', r) /\
    calls (dataset t') = [CallUpdateWatermark 10].
Proof.
  assert (Hl : parentState (observed tt {| Used := 0; Quota := 0 |} [1%N; 1%N])
                 !! 1%N = Some zero_state) by (vm_compute; reflexivity).
  assert (Honly : forall id', id' <> 1%N ->
            parentState (observed tt {| Used := 0; Quota := 0 |} [1%N; 1%N]) !! id'
              = None).
  { intros id' Hne. unfold observed, NewPartitionMergeTransformation.
    cbn [parentState]. rewrite register_parents_lookup.
    rewrite decide_False; [apply lookup_empty|].
    intros [?|[?|[]%elem_of_nil]%elem_of_cons]%elem_of_cons; done. }
  assert (Hv : 10 <= MaxInt64) by (unfold MaxInt64; lia).
  split; [exact Hl|]. split; [exact Honly|]. split; [exact Hv|].
  exact (proj1 (merge_with_one_parent_forwards_unchanged _ 1%N 10 zero_state
                  Hl Honly Hv)).
Defined.

End SingleParentExamples.

(** ** The leak check of the test executor *)

Section LeakCheckOfRun.
Import TestExecutor TestOutput.

Lemma streams_end_well_or_one_fails (rs : list Result) :
  (forall r, r ∈ rs -> streamErr r = None) \/
  exists pre r post err,
    rs = pre ++ r :: post /\ (forall r', r' ∈ pre -> streamErr r' = None) /\
    streamErr r = Some err.
Proof.
  induction rs as [|r rs IH]; [left; by intros r []%elem_of_nil|].
  destruct (streamErr r) as [err|] eqn:Hr.
  { right. exists [], r, rs, err. split; [done|]. split; [|done].
    by intros r' []%elem_of_nil. }
  destruct IH as [Hall|(pre & r1 & post & err & -> & Hpre & Herr)].
  - left. intros r' [->|Hin]%elem_of_cons; [done | by apply Hall].
  - right. exists (r :: pre), r1, post, err. split; [done|]. split; [|done].
    intros r' [->|Hin]%elem_of_cons; [done | by apply Hpre].
Qed.

Lemma Run_when_a_stream_fails w pre r post err :
  started w -> results w = pre ++ r :: post ->
  (forall r', r' ∈ pre -> streamErr r' = None) -> streamErr r = Some err ->
  exists evs,
    Run w = ([EvMarshal; EvCompile; EvStart] ++ evs ++ [EvDone; EvSpanFinish],
             Some err) /\
    Forall (fun e => is_consumption e = true) evs.
Proof.
  intros (H1 & H2 & H3) Hres Hpre Herr. unfold Run. rewrite H1, H2, H3, Hres.
  pose proof (consume_all_events 0 (pre ++ r :: post) "") as Hevs.
  destruct (consume_all_stops 0 pre r post "" err Hpre Herr) as (evs & Heq & _).
  rewrite Heq in Hevs |- *. by exists evs.
Qed.

Lemma Run_when_the_streams_end_well w :
  started w -> (forall r, r ∈ results w -> streamErr r = None) ->
  exists evs,
    Run w = ([EvMarshal; EvCompile; EvStart] ++ evs ++
             [EvRelease; EvAssertSize; EvDone; EvSpanFinish],
             if (0 <? leakReports w)%nat then Some leak_error
             else match resultsErr w with
                  | Some err => Some err
                  | None => if decide (printed (results w) = "") then None
                            else Some (output_error (printed (results w)))
                  end) /\
    Forall (fun e => is_consumption e = true) evs /\
    forall k r, results w !! k = Some r ->
      EvNext k ∈ evs /\ forall tbl, tbl ∈ Tables r -> EvStringify k tbl ∈ evs.
Proof.
  intros (H1 & H2 & H3) Hall. unfold Run. rewrite H1, H2, H3.
  pose proof (consume_all_events 0 (results w) "") as Hevs.
  destruct (consume_all_ok 0 (results w) "" Hall) as [evs Heq].
  pose proof (consume_all_complete _ _ _ _ _ Heq) as Hcomplete.
  rewrite Heq in Hevs |- *. fold (printed (results w)). exists evs.
  split; [|split; [done|]].
  - f_equal. destruct (0 <? leakReports w)%nat; [done|].
    destruct (resultsErr w) as [e|]; [done|]. case_decide as Hp.
    + by rewrite (proj2 (length_positive _) Hp).
    + destruct (0 <? String.length (printed (results w)))%nat eqn:Hlen; [done|].
      by apply length_positive in Hlen.
  - intros k r Hk. by destruct (Hcomplete k r Hk) as (_ & ? & ?).
Qed.

Lemma no_check_without_results tr evs :
  Forall (fun e => is_consumption e = true) evs ->
  tr = [EvMarshal; EvCompile; EvStart] ++ evs ++ [EvDone; EvSpanFinish] ->
  EvAssertSize ∉ tr.
Proof.
  intros Hevs -> Hin.
  repeat (apply elem_of_cons in Hin as [Hin|Hin]; [done|]).
  apply elem_of_app in Hin as [Hin|Hin];
    [by apply no_check_among_consumption in Hin|].
  repeat (apply elem_of_cons in Hin as [Hin|Hin]; [done|]).
  by apply elem_of_nil in Hin.
Qed.

(** The check is made exactly when the program was started and every
    stream ended well. *)
Lemma Run_checks_iff w :
  EvAssertSize ∈ fst (Run w) <->
  started w /\ forall r, r ∈ results w -> streamErr r = None.
Proof.
  split.
  - intros Hin. unfold started.
    destruct (marshalErr w) as [e1|] eqn:H1.
    { unfold Run in Hin. rewrite H1 in Hin. simpl in Hin.
      by apply list_elem_of_singleton in Hin. }
    destruct (compileErr w) as [e2|] eqn:H2.
    { unfold Run in Hin. rewrite H1, H2 in Hin. simpl in Hin.
      repeat (apply elem_of_cons in Hin as [Hin|Hin]; [done|]).
      by apply elem_of_nil in Hin. }
    destruct (startErr w) as [e3|] eqn:H3.
    { unfold Run in Hin. rewrite H1, H2, H3 in Hin. simpl in Hin.
      repeat (apply elem_of_cons in Hin as [Hin|Hin]; [done|]).
      by apply elem_of_nil in Hin. }
    split; [done|].
    destruct (streams_end_well_or_one_fails (results w))
      as [Hall|(pre & r & post & err & Hres & Hpre & Herr)]; [done|].
    destruct (Run_when_a_stream_fails w pre r post err) as (evs & HR & Hevs);
      [done..|].
    rewrite HR in Hin. simpl in Hin.
    by apply (no_check_without_results _ evs Hevs eq_refl) in Hin.
  - intros [Hs Hall].
    destruct (Run_when_the_streams_end_well w Hs Hall) as (evs & -> & _).
    simpl. do 3 (apply elem_of_cons; right). apply elem_of_app. right.
    apply elem_of_cons. right. apply elem_of_cons. by left.
Qed.

Lemma execution_error_is_no_leak w e :
  collaborators_report_no_leak w -> execution_error w e -> e <> leak_error.
Proof.
  intros (Hm & Hs & Hr) He ->. inversion He as
    [err H1|err H1 H2|err H1 H2 H3|pre r post err Hst Hres Hpre Herr
    |err Hst Hall Hres|Hst Hall Hres Hp]; subst.
  - done.
  - apply (Hs r); [|done]. rewrite Hres. apply elem_of_app. right.
    apply elem_of_cons. by left.
  - done.
Qed.

Lemma Run_returns_the_execution_error w e :
  execution_error w e -> ~ leak_detected w (fst (Run w)) ->
  snd (Run w) = Some e.
Proof.
  intros He Hno. destruct He as
    [err H1|err H1 H2|err H1 H2 H3|pre r post err Hst Hres Hpre Herr
    |err Hst Hall Hres|Hst Hall Hres Hp].
  - unfold Run. by rewrite H1.
  - unfold Run. by rewrite H1, H2.
  - unfold Run. by rewrite H1, H2, H3.
  - by destruct (Run_when_a_stream_fails w pre r post err) as (evs & -> & _).
  - pose proof (proj2 (Run_checks_iff w) (conj Hst Hall)) as Hcheck.
    destruct (Run_when_the_streams_end_well w Hst Hall) as (evs & HR & _).
    rewrite HR in Hno, Hcheck |- *. simpl in *.
    destruct (0 <? leakReports w)%nat eqn:Hleak.
    + exfalso. apply Hno. split; [done | by apply Nat.ltb_lt].
    + by rewrite Hres.
  - pose proof (proj2 (Run_checks_iff w) (conj Hst Hall)) as Hcheck.
    destruct (Run_when_the_streams_end_well w Hst Hall) as (evs & HR & _).
    rewrite HR in Hno, Hcheck |- *. simpl in *.
    destruct (0 <? leakReports w)%nat eqn:Hleak.
    + exfalso. apply Hno. split; [done | by apply Nat.ltb_lt].
    + rewrite Hres. by rewrite decide_False.
Qed.

Lemma Run_error_is_leak_or_execution w e :
  snd (Run w) = Some e ->
  (e = leak_error /\ leak_detected w (fst (Run w))) \/
  (execution_error w e /\ ~ leak_detected w (fst (Run w))).
Proof.
  destruct (marshalErr w) as [e1|] eqn:H1.
  { unfold Run. rewrite H1. simpl. intros [= <-]. right.
    split; [by constructor|]. by intros [?%list_elem_of_singleton _]. }
  destruct (compileErr w) as [e2|] eqn:H2.
  { unfold Run. rewrite H1, H2. simpl. intros [= <-]. right.
    split; [by constructor|]. intros [Hin _].
    repeat (apply elem_of_cons in Hin as [Hin|Hin]; [done|]).
    by apply elem_of_nil in Hin. }
  destruct (startErr w) as [e3|] eqn:H3.
  { unfold Run. rewrite H1, H2, H3. simpl. intros [= <-]. right.
    split; [by constructor|]. intros [Hin _].
    repeat (apply elem_of_cons in Hin as [Hin|Hin]; [done|]).
    by apply elem_of_nil in Hin. }
  assert (started w) as Hst by done.
  destruct (streams_end_well_or_one_fails (results w))
    as [Hall|(pre & r & post & err & Hres & Hpre & Herr)].
  - pose proof (proj2 (Run_checks_iff w) (conj Hst Hall)) as Hcheck.
    destruct (Run_when_the_streams_end_well w Hst Hall) as (evs & HR & _).
    rewrite HR in Hcheck |- *. simpl in *.
    destruct (0 <? leakReports w)%nat eqn:Hleak.
    + intros [= <-]. left. split; [done|]. split; [done | by apply Nat.ltb_lt].
    + assert (~ leak_detected w
                  ([EvMarshal; EvCompile; EvStart] ++ evs ++
                   [EvRelease; EvAssertSize; EvDone; EvSpanFinish])) as Hno.
      { intros [_ Hlt]. apply Nat.ltb_lt in Hlt. congruence. }
      destruct (resultsErr w) as [e5|] eqn:H5.
      * intros [= <-]. right. split; [by apply exec_results | done].
      * case_decide as Hp; [done|]. intros [= <-]. right.
        split; [by apply exec_output | done].
  - destruct (Run_when_a_stream_fails w pre r post err) as (evs & HR & Hevs);
      [done..|].
    rewrite HR. simpl. intros [= <-]. right.
    split; [by eapply exec_stream|]. intros [Hin _].
    by apply (no_check_without_results _ evs Hevs eq_refl) in Hin.
Qed.

(** C8: [Run] asks the allocator for unreleased allocations exactly when
    the program was started and every result stream ended without an
    error, and then once, after every result has been taken from the
    iterator, every table of every stream has been read and the iterator
    has been released, with nothing read after the check.  When it is
    made and files a complaint, [Run] returns the error [Memory leak
    detected]; an error [Run] returns is that one exactly when a leak was
    detected, and otherwise an error of the execution, which is returned
    exactly when no leak was detected.  No error of the execution is the
    leak error, unless a collaborator hands that very error to [Run]. *)
Theorem Run_checks_for_leaks_after_the_results (w : World) :
  let (tr, err) := Run w in
  (EvAssertSize ∈ tr <->
   started w /\ forall r, r ∈ results w -> streamErr r = None) /\
  (EvAssertSize ∈ tr ->
   occurrences EvAssertSize tr = 1%nat /\
   exists evs,
     tr = [EvMarshal; EvCompile; EvStart] ++ evs ++
          [EvRelease; EvAssertSize; EvDone; EvSpanFinish] /\
     Forall (fun e => is_consumption e = true) evs /\
     forall k r, results w !! k = Some r ->
       EvNext k ∈ evs /\ forall tbl, tbl ∈ Tables r -> EvStringify k tbl ∈ evs) /\
  (started w -> (forall r, r ∈ results w -> streamErr r = None) ->
   (0 < leakReports w)%nat -> err = Some leak_error) /\
  (forall e, err = Some e <->
     (e = leak_error /\ leak_detected w tr) \/
     (execution_error w e /\ ~ leak_detected w tr)) /\
  (collaborators_report_no_leak w ->
   forall e, execution_error w e -> e <> leak_error).
Proof.
  pose proof (Run_checks_iff w) as Hiff.
  pose proof (Run_error_is_leak_or_execution w) as Hclass.
  pose proof (Run_returns_the_execution_error w) as Hexec.
  destruct (Run w) as [tr err] eqn:HR. simpl in *.
  split; [done|]. split; [|split; [|split]].
  - intros [Hst Hall]%Hiff.
    destruct (Run_when_the_streams_end_well w Hst Hall) as (evs & HR' & Hevs & Hc).
    rewrite HR in HR'. injection HR' as -> _. split; [|by exists evs].
    change (occurrences EvAssertSize ([EvMarshal; EvCompile; EvStart] ++ evs ++
              [EvRelease; EvAssertSize; EvDone; EvSpanFinish]) = 1%nat).
    rewrite !occurrences_app, (occurrences_consumption EvAssertSize evs) by done.
    reflexivity.
  - intros Hst Hall Hleak.
    destruct (Run_when_the_streams_end_well w Hst Hall) as (evs & HR' & _).
    rewrite HR in HR'. injection HR' as _ ->.
    apply Nat.ltb_lt in Hleak. by rewrite Hleak.
  - intros e. split; [apply Hclass|].
    intros [[-> [Hcheck Hleak]]|[He Hno]]; [|by apply Hexec].
    apply Hiff in Hcheck as [Hst Hall].
    destruct (Run_when_the_streams_end_well w Hst Hall) as (evs & HR' & _).
    rewrite HR in HR'. injection HR' as _ ->.
    apply Nat.ltb_lt in Hleak. by rewrite Hleak.
  - intros Hc e. by apply execution_error_is_no_leak.
Qed.

End LeakCheckOfRun.
